(** * STFT processor of noise-repellent (src/stft_processor.c)

    A shallow embedding of the STFT analysis / synthesis engine and the
    properties of it that the specification states.

    - C [float] is IEEE-754 binary32, modelled with the executable
      specification floats of the standard library at precision 24 and
      maximal exponent 128 (round to nearest, ties to even).
    - C [int] values are modelled as [Z].  Every integer the processor
      computes is bounded by the configured sizes, so no wrap-around occurs.
    - A C array is a [list float] of the allocated length.  An access outside
      the allocation is undefined behaviour in C; here it makes the operation
      return [None].
    - The collaborators that live outside [stft_processor.c] (the FFTW
      transforms, the spectral stage [fft_p_run], the window generator
      [fft_window]) are parameters of the development. *)

From Stdlib Require Import ZArith Lia.
From Stdlib Require Import Floats.SpecFloat.
From stdpp Require Import base option list.

Local Open Scope Z_scope.

(** Sequencing of steps that may fail. *)
Notation "'do' x <- m ; k" :=
  (match m with Some x => k | None => None end)
  (at level 10, x pattern, m at level 100, k at level 200,
   format "'[v' 'do'  x  <-  m ; '/' k ']'").

(** ** Single precision arithmetic *)

Definition float : Type := spec_float.

Module F32.
Definition prec : Z := 24.
Definition emax : Z := 128.

Definition zero : float := S754_zero false.
Definition add : float → float → float := SFadd prec emax.
Definition mul : float → float → float := SFmul prec emax.
Definition div : float → float → float := SFdiv prec emax.

(** The conversion [(float) i] of a C [int]. *)
Definition of_int (i : Z) : float := binary_normalize prec emax i 0 false.
End F32.

(** ** Arrays and loops *)

(** [a[i]] as an rvalue. *)
Definition rd (a : list float) (i : Z) : option float :=
  if i <? 0 then None else a !! Z.to_nat i.

(** [a[i] = v]. *)
Definition wr (a : list float) (i : Z) (v : float) : option (list float) :=
  if (0 <=? i) && (i <? Z.of_nat (length a))
  then Some (<[Z.to_nat i := v]> a) else None.

(** [a[i]] where the index is known to be inside the array. *)
Definition nth_float (l : list float) (k : Z) : float :=
  default F32.zero (rd l k).

(** The allocated length of an array, as a C integer. *)
Definition len (a : list float) : Z := Z.of_nat (length a).

(** [a] with the block [vs] stored from index [off] on. *)
Definition splice (a : list float) (off : nat) (vs : list float) : list float :=
  take off a ++ vs ++ drop (off + length vs) a.

(** The inner product of two sequences as the code sums it: in single
    precision, front to back, starting from [sum]. *)
Definition inner_product_from (sum : float) (u w : list float) : float :=
  fold_left (λ s ab, F32.add s (F32.mul ab.1 ab.2)) (zip u w) sum.

Definition inner_product (u w : list float) : float :=
  inner_product_from F32.zero u w.

(** [n] iterations of [body], the counter starting at [k]. *)
Fixpoint for_loop {S : Type} (n : nat) (k : Z)
    (body : Z → S → option S) (s : S) : option S :=
  match n with
  | O => Some s
  | Datatypes.S n' => do s' <- body k s; for_loop n' (k + 1) body s'
  end.

(** [for (k = lo; k < hi; k++) body] *)
Definition for_lt {S : Type} (lo hi : Z) (body : Z → S → option S) (s : S)
    : option S :=
  for_loop (Z.to_nat (hi - lo)) lo body s.

(** [for (k = lo; k <= hi; k++) body] *)
Definition for_le {S : Type} (lo hi : Z) (body : Z → S → option S) (s : S)
    : option S :=
  for_loop (Z.to_nat (hi + 1 - lo)) lo body s.

(** The [n] values [f 0 .. f (n - 1)]. *)
Definition tabulate (n : Z) (f : Z → float) : list float := f <$> seqZ 0 n.

(** [memcpy(dst, src, n * sizeof(float))] for two distinct arrays. *)
Definition memcpy (dst src : list float) (n : Z) : option (list float) :=
  if (0 <=? n) && (n <=? Z.of_nat (length dst)) && (n <=? Z.of_nat (length src))
  then Some (take (Z.to_nat n) src ++ drop (Z.to_nat n) dst) else None.

(** [memmove(a + d, a + s, n * sizeof(float))] inside one array: the [n]
    floats that start at [s] are read first and then stored from [d] on. *)
Definition memmove (a : list float) (d s n : Z) : option (list float) :=
  if (0 <=? n) && (0 <=? d) && (0 <=? s)
     && (d + n <=? Z.of_nat (length a)) && (s + n <=? Z.of_nat (length a))
  then Some (take (Z.to_nat d) a
             ++ take (Z.to_nat n) (drop (Z.to_nat s) a)
             ++ drop (Z.to_nat (d + n)) a)
  else None.

(** ** FFTW plans

    [fftwf_plan_r2r_1d(n, in, out, kind, flags)] fixes the size, the kind and
    the two arrays of a plan.  In [stft_p_init] the forward plan reads
    [input_fft_buffer] and writes [output_fft_buffer]; the backward plan goes
    the other way. *)

Inductive fftw_r2r_kind : Type := FFTW_R2HC | FFTW_HC2R.

Record fftwf_plan : Type := {
  plan_n : Z;
  plan_kind : fftw_r2r_kind
}.

Definition fftwf_plan_r2r_1d (n : Z) (kind : fftw_r2r_kind) : fftwf_plan :=
  {| plan_n := n; plan_kind := kind |}.

(** STFT default values (hardcoded in the source). *)
Definition FFT_SIZE : Z := 2048.
Definition BLOCK_SIZE : Z := 2048.
Definition INPUT_WINDOW_TYPE : Z := 3.
Definition OUTPUT_WINDOW_TYPE : Z := 3.
Definition OVERLAP_FACTOR : Z := 4.

(** ** External collaborators

    What [stft_processor.c] takes from outside, as an interface. *)

Class Externals : Type := {
  (** The state of the spectral stage ([FFTprocessor] of [fft_processor.c]). *)
  FFTprocessor : Type;
  (** The content of freshly allocated memory, by index. *)
  uninitialized : Z → float;
  (** Coefficient [k] of the window of family [window_type] and length [N]
      (the window generator of the repository): [window_sample window_type N k]. *)
  window_sample : Z → Z → Z → float;
  (** The FFTW transforms as functions of the input array: output [k] of the
      real to half-complex transform, output [k] of the half-complex to real
      transform, and what the latter leaves in its input array (FFTW does not
      preserve the input of a half-complex to real transform). *)
  r2hc : list float → Z → float;
  hc2r : list float → Z → float;
  hc2r_scratch : list float → Z → float;
  (** The spectral stage: constructor, next state, and entry [k] of the
      spectrum it leaves in place. *)
  fft_p_init : Z → Z → Z → FFTprocessor;
  fft_p_run_state : FFTprocessor → list float → float → FFTprocessor;
  fft_p_run_spectrum : FFTprocessor → list float → float → Z → float
}.

Section STFT.

Context {ext : Externals}.

(** ** The STFT processor struct *)

Record STFTprocessor : Type := {
  fft_size : Z;
  forward : fftwf_plan;
  backward : fftwf_plan;
  block_size : Z;
  window_option_input : Z;
  window_option_output : Z;
  overlap_factor : Z;
  overlap_scale_factor : float;
  hop : Z;
  input_latency : Z;
  read_position : Z;
  input_window : list float;
  output_window : list float;
  in_fifo : list float;
  out_fifo : list float;
  output_accum : list float;
  input_fft_buffer : list float;
  output_fft_buffer : list float;
  fft_processor : FFTprocessor
}.

(** Assignments to the fields that the code writes after construction. *)

Definition set_overlap_scale_factor (v : float) (self : STFTprocessor) :=
  {| fft_size := fft_size self; forward := forward self;
     backward := backward self; block_size := block_size self;
     window_option_input := window_option_input self;
     window_option_output := window_option_output self;
     overlap_factor := overlap_factor self;
     overlap_scale_factor := v;
     hop := hop self; input_latency := input_latency self;
     read_position := read_position self;
     input_window := input_window self; output_window := output_window self;
     in_fifo := in_fifo self; out_fifo := out_fifo self;
     output_accum := output_accum self;
     input_fft_buffer := input_fft_buffer self;
     output_fft_buffer := output_fft_buffer self;
     fft_processor := fft_processor self |}.

Definition set_read_position (v : Z) (self : STFTprocessor) :=
  {| fft_size := fft_size self; forward := forward self;
     backward := backward self; block_size := block_size self;
     window_option_input := window_option_input self;
     window_option_output := window_option_output self;
     overlap_factor := overlap_factor self;
     overlap_scale_factor := overlap_scale_factor self;
     hop := hop self; input_latency := input_latency self;
     read_position := v;
     input_window := input_window self; output_window := output_window self;
     in_fifo := in_fifo self; out_fifo := out_fifo self;
     output_accum := output_accum self;
     input_fft_buffer := input_fft_buffer self;
     output_fft_buffer := output_fft_buffer self;
     fft_processor := fft_processor self |}.

Definition set_input_window (v : list float) (self : STFTprocessor) :=
  {| fft_size := fft_size self; forward := forward self;
     backward := backward self; block_size := block_size self;
     window_option_input := window_option_input self;
     window_option_output := window_option_output self;
     overlap_factor := overlap_factor self;
     overlap_scale_factor := overlap_scale_factor self;
     hop := hop self; input_latency := input_latency self;
     read_position := read_position self;
     input_window := v; output_window := output_window self;
     in_fifo := in_fifo self; out_fifo := out_fifo self;
     output_accum := output_accum self;
     input_fft_buffer := input_fft_buffer self;
     output_fft_buffer := output_fft_buffer self;
     fft_processor := fft_processor self |}.

Definition set_output_window (v : list float) (self : STFTprocessor) :=
  {| fft_size := fft_size self; forward := forward self;
     backward := backward self; block_size := block_size self;
     window_option_input := window_option_input self;
     window_option_output := window_option_output self;
     overlap_factor := overlap_factor self;
     overlap_scale_factor := overlap_scale_factor self;
     hop := hop self; input_latency := input_latency self;
     read_position := read_position self;
     input_window := input_window self; output_window := v;
     in_fifo := in_fifo self; out_fifo := out_fifo self;
     output_accum := output_accum self;
     input_fft_buffer := input_fft_buffer self;
     output_fft_buffer := output_fft_buffer self;
     fft_processor := fft_processor self |}.

Definition set_in_fifo (v : list float) (self : STFTprocessor) :=
  {| fft_size := fft_size self; forward := forward self;
     backward := backward self; block_size := block_size self;
     window_option_input := window_option_input self;
     window_option_output := window_option_output self;
     overlap_factor := overlap_factor self;
     overlap_scale_factor := overlap_scale_factor self;
     hop := hop self; input_latency := input_latency self;
     read_position := read_position self;
     input_window := input_window self; output_window := output_window self;
     in_fifo := v; out_fifo := out_fifo self;
     output_accum := output_accum self;
     input_fft_buffer := input_fft_buffer self;
     output_fft_buffer := output_fft_buffer self;
     fft_processor := fft_processor self |}.

Definition set_out_fifo (v : list float) (self : STFTprocessor) :=
  {| fft_size := fft_size self; forward := forward self;
     backward := backward self; block_size := block_size self;
     window_option_input := window_option_input self;
     window_option_output := window_option_output self;
     overlap_factor := overlap_factor self;
     overlap_scale_factor := overlap_scale_factor self;
     hop := hop self; input_latency := input_latency self;
     read_position := read_position self;
     input_window := input_window self; output_window := output_window self;
     in_fifo := in_fifo self; out_fifo := v;
     output_accum := output_accum self;
     input_fft_buffer := input_fft_buffer self;
     output_fft_buffer := output_fft_buffer self;
     fft_processor := fft_processor self |}.

Definition set_output_accum (v : list float) (self : STFTprocessor) :=
  {| fft_size := fft_size self; forward := forward self;
     backward := backward self; block_size := block_size self;
     window_option_input := window_option_input self;
     window_option_output := window_option_output self;
     overlap_factor := overlap_factor self;
     overlap_scale_factor := overlap_scale_factor self;
     hop := hop self; input_latency := input_latency self;
     read_position := read_position self;
     input_window := input_window self; output_window := output_window self;
     in_fifo := in_fifo self; out_fifo := out_fifo self;
     output_accum := v;
     input_fft_buffer := input_fft_buffer self;
     output_fft_buffer := output_fft_buffer self;
     fft_processor := fft_processor self |}.

Definition set_input_fft_buffer (v : list float) (self : STFTprocessor) :=
  {| fft_size := fft_size self; forward := forward self;
     backward := backward self; block_size := block_size self;
     window_option_input := window_option_input self;
     window_option_output := window_option_output self;
     overlap_factor := overlap_factor self;
     overlap_scale_factor := overlap_scale_factor self;
     hop := hop self; input_latency := input_latency self;
     read_position := read_position self;
     input_window := input_window self; output_window := output_window self;
     in_fifo := in_fifo self; out_fifo := out_fifo self;
     output_accum := output_accum self;
     input_fft_buffer := v;
     output_fft_buffer := output_fft_buffer self;
     fft_processor := fft_processor self |}.

Definition set_output_fft_buffer (v : list float) (self : STFTprocessor) :=
  {| fft_size := fft_size self; forward := forward self;
     backward := backward self; block_size := block_size self;
     window_option_input := window_option_input self;
     window_option_output := window_option_output self;
     overlap_factor := overlap_factor self;
     overlap_scale_factor := overlap_scale_factor self;
     hop := hop self; input_latency := input_latency self;
     read_position := read_position self;
     input_window := input_window self; output_window := output_window self;
     in_fifo := in_fifo self; out_fifo := out_fifo self;
     output_accum := output_accum self;
     input_fft_buffer := input_fft_buffer self;
     output_fft_buffer := v;
     fft_processor := fft_processor self |}.

Definition set_fft_processor (v : FFTprocessor) (self : STFTprocessor) :=
  {| fft_size := fft_size self; forward := forward self;
     backward := backward self; block_size := block_size self;
     window_option_input := window_option_input self;
     window_option_output := window_option_output self;
     overlap_factor := overlap_factor self;
     overlap_scale_factor := overlap_scale_factor self;
     hop := hop self; input_latency := input_latency self;
     read_position := read_position self;
     input_window := input_window self; output_window := output_window self;
     in_fifo := in_fifo self; out_fifo := out_fifo self;
     output_accum := output_accum self;
     input_fft_buffer := input_fft_buffer self;
     output_fft_buffer := output_fft_buffer self;
     fft_processor := v |}.

(** ** Library calls and collaborators *)

(** [malloc(n * sizeof(float))]: an array of [n] floats of unspecified
    content.  The source never tests the pointer it gets: for a negative
    [n], a size that the conversion to [size_t] makes too large to be
    served, it goes on with a null pointer, an array without any entry. *)
Definition malloc_float (n : Z) : option (list float) :=
  Some (tabulate n uninitialized).

(** Modelled from the spec: [fft_window(window, N, window_type)] fills
    [window] with [N] coefficients of the family [window_type]; it is pure and
    deterministic.  Its source is not part of [stft_processor.c]. *)
Definition fft_window (window : list float) (N window_type : Z)
    : option (list float) :=
  for_lt 0 N (λ k w, wr w k (window_sample window_type N k)) window.

(** Modelled from the spec: [initialize_array(array, value, size)] stores
    [value] in the first [size] entries of [array] (the spec: all dynamic
    buffers are zero-filled).  Its source is not part of
    [stft_processor.c]. *)
Definition initialize_array (array : list float) (value : float) (size : Z)
    : option (list float) :=
  for_lt 0 size (λ k a, wr a k value) array.

(** [fftwf_execute(plan)] on the arrays the plan was made for. *)
Definition fftwf_execute (plan : fftwf_plan) (self : STFTprocessor)
    : option STFTprocessor :=
  let n := plan_n plan in
  if (0 <=? n) && (n <=? Z.of_nat (length (input_fft_buffer self)))
     && (n <=? Z.of_nat (length (output_fft_buffer self)))
  then
    match plan_kind plan with
    | FFTW_R2HC =>
        let src := take (Z.to_nat n) (input_fft_buffer self) in
        Some (set_output_fft_buffer
                (tabulate n (r2hc src)
                 ++ drop (Z.to_nat n) (output_fft_buffer self)) self)
    | FFTW_HC2R =>
        let src := take (Z.to_nat n) (output_fft_buffer self) in
        Some (set_input_fft_buffer
                (tabulate n (hc2r src)
                 ++ drop (Z.to_nat n) (input_fft_buffer self))
                (set_output_fft_buffer
                   (tabulate n (hc2r_scratch src)
                    ++ drop (Z.to_nat n) (output_fft_buffer self)) self))
    end
  else None.

(** [fft_p_run(fft_processor, spectrum, enable)]: the stage was constructed
    for [fft_size] entries and rewrites them in place. *)
Definition fft_p_run (p : FFTprocessor) (n : Z) (spectrum : list float)
    (enable : float) : option (FFTprocessor * list float) :=
  if (0 <=? n) && (n <=? Z.of_nat (length spectrum))
  then
    let src := take (Z.to_nat n) spectrum in
    Some (fft_p_run_state p src enable,
          tabulate n (fft_p_run_spectrum p src enable)
          ++ drop (Z.to_nat n) spectrum)
  else None.

(** ** The functions of [stft_processor.c] *)

(** Wrapper for getting the pre and post processing windows and adequate
    scaling factor. *)
Definition stft_p_pre_and_post_window (self : STFTprocessor)
    : option STFTprocessor :=
  let sum := F32.zero in
  (* Input window *)
  do w <- match window_option_input self with
      | 0 => fft_window (input_window self) (block_size self) 0
      | 1 => fft_window (input_window self) (block_size self) 1
      | 2 => fft_window (input_window self) (block_size self) 2
      | 3 => fft_window (input_window self) (block_size self) 3
      | _ => Some (input_window self)
      end;
  let self := set_input_window w self in
  (* Output window *)
  do w <- match window_option_output self with
      | 0 => fft_window (output_window self) (block_size self) 0
      | 1 => fft_window (output_window self) (block_size self) 1
      | 2 => fft_window (output_window self) (block_size self) 2
      | 3 => fft_window (output_window self) (block_size self) 3
      | _ => Some (output_window self)
      end;
  let self := set_output_window w self in
  (* the scaling necessary for perfect reconstruction using overlap add *)
  do sum <- for_lt 0 (block_size self)
          (λ i sum,
             do a <- rd (input_window self) i;
             do b <- rd (output_window self) i;
             Some (F32.add sum (F32.mul a b)))
          sum;
  Some (set_overlap_scale_factor
          (F32.div sum (F32.of_int (block_size self))) self).

(** Adds zeros to the spectrum in order to complete the spectrum if
    [block_size != fft_size]. *)
Definition stft_p_zeropad (self : STFTprocessor) : option STFTprocessor :=
  let number_of_zeros := fft_size self - block_size self in
  do buf <- for_le 0 (number_of_zeros - 1)
          (λ k buf, wr buf (block_size self - 1 + k) F32.zero)
          (input_fft_buffer self);
  Some (set_input_fft_buffer buf self).

(** Does the analysis part of the stft for current block. *)
Definition stft_p_analysis (self : STFTprocessor) : option STFTprocessor :=
  do self <- (if block_size self <? fft_size self
          then stft_p_zeropad self else Some self);
  (* Windowing the frame input values *)
  do buf <- for_lt 0 (fft_size self)
          (λ k buf,
             do x <- rd buf k;
             do w <- rd (input_window self) k;
             wr buf k (F32.mul x w))
          (input_fft_buffer self);
  let self := set_input_fft_buffer buf self in
  (* Do transform *)
  fftwf_execute (forward self) self.

(** Does the synthesis part of the stft for current block and then does the
    OLA method to enable the final output. *)
Definition stft_p_synthesis (self : STFTprocessor) : option STFTprocessor :=
  (* Do inverse transform *)
  do self <- fftwf_execute (backward self) self;
  (* Normalizing value *)
  do buf <- for_lt 0 (fft_size self)
          (λ k buf,
             do x <- rd buf k;
             wr buf k (F32.div x (F32.of_int (fft_size self))))
          (input_fft_buffer self);
  let self := set_input_fft_buffer buf self in
  (* Windowing and scaling *)
  do buf <- for_lt 0 (fft_size self)
          (λ k buf,
             do w <- rd (output_window self) k;
             do x <- rd buf k;
             wr buf k
               (F32.div (F32.mul w x)
                  (F32.mul (overlap_scale_factor self)
                     (F32.of_int (overlap_factor self)))))
          (input_fft_buffer self);
  let self := set_input_fft_buffer buf self in
  (* Accumulation *)
  do acc <- for_lt 0 (block_size self)
          (λ k acc,
             do a <- rd acc k;
             do x <- rd (input_fft_buffer self) k;
             wr acc k (F32.add a x))
          (output_accum self);
  let self := set_output_accum acc self in
  (* Output samples up to the hop size *)
  do fifo <- for_lt 0 (hop self)
           (λ k fifo,
              do a <- rd (output_accum self) k;
              wr fifo k a)
           (out_fifo self);
  let self := set_out_fifo fifo self in
  (* shift FFT accumulator the hop size *)
  do acc <- memmove (output_accum self) 0 (hop self) (block_size self);
  let self := set_output_accum acc self in
  (* move input FIFO *)
  do fifo <- for_lt 0 (input_latency self)
           (λ k fifo,
              do x <- rd fifo (k + hop self);
              wr fifo k x)
           (in_fifo self);
  Some (set_in_fifo fifo self).

(** Returns the latency needed to be reported to the host. *)
Definition stft_p_get_latency (self : STFTprocessor) : Z :=
  input_latency self.

(** Calls the fft processor to apply the processing to current block. *)
Definition stft_p_processing (self : STFTprocessor) (enable : float)
    : option STFTprocessor :=
  do (p, spectrum) <- fft_p_run (fft_processor self) (fft_size self)
                     (output_fft_buffer self) enable;
  Some (set_fft_processor p (set_output_fft_buffer spectrum self)).

(** Initializes all dynamics arrays with zeros. *)
Definition stft_p_reset (self : STFTprocessor) : option STFTprocessor :=
  do a <- initialize_array (input_fft_buffer self) F32.zero (fft_size self);
  let self := set_input_fft_buffer a self in
  do a <- initialize_array (output_fft_buffer self) F32.zero (fft_size self);
  let self := set_output_fft_buffer a self in
  do a <- initialize_array (input_window self) F32.zero (fft_size self);
  let self := set_input_window a self in
  do a <- initialize_array (output_window self) F32.zero (fft_size self);
  let self := set_output_window a self in
  do a <- initialize_array (in_fifo self) F32.zero (block_size self);
  let self := set_in_fifo a self in
  do a <- initialize_array (out_fifo self) F32.zero (block_size self);
  let self := set_out_fifo a self in
  do a <- initialize_array (output_accum self) F32.zero (block_size self * 2);
  Some (set_output_accum a self).

(** STFT processor initialization and configuration, for given values of the
    five configuration macros. *)
Definition stft_p_init_with (FFT_SIZE BLOCK_SIZE INPUT_WINDOW_TYPE
    OUTPUT_WINDOW_TYPE OVERLAP_FACTOR : Z) (sample_rate : Z)
    : option STFTprocessor :=
  (* self configuration *)
  let block_size := BLOCK_SIZE in
  let fft_size := FFT_SIZE in
  let window_option_input := INPUT_WINDOW_TYPE in
  let window_option_output := OUTPUT_WINDOW_TYPE in
  let overlap_factor := OVERLAP_FACTOR in
  do hop <- (if overlap_factor =? 0 then None
         else Some (fft_size `quot` overlap_factor));
  let input_latency := fft_size - hop in
  let read_position := input_latency in
  (* STFT window related *)
  do input_window <- malloc_float fft_size;
  do output_window <- malloc_float fft_size;
  (* fifo buffer init *)
  do in_fifo <- malloc_float block_size;
  do out_fifo <- malloc_float block_size;
  (* buffer for OLA *)
  do output_accum <- malloc_float (block_size * 2);
  (* FFTW related *)
  do input_fft_buffer <- malloc_float fft_size;
  do output_fft_buffer <- malloc_float fft_size;
  let forward := fftwf_plan_r2r_1d fft_size FFTW_R2HC in
  let backward := fftwf_plan_r2r_1d fft_size FFTW_HC2R in
  let self :=
    {| fft_size := fft_size; forward := forward; backward := backward;
       block_size := block_size;
       window_option_input := window_option_input;
       window_option_output := window_option_output;
       overlap_factor := overlap_factor;
       overlap_scale_factor := uninitialized 0;
       hop := hop; input_latency := input_latency;
       read_position := read_position;
       input_window := input_window; output_window := output_window;
       in_fifo := in_fifo; out_fifo := out_fifo;
       output_accum := output_accum;
       input_fft_buffer := input_fft_buffer;
       output_fft_buffer := output_fft_buffer;
       fft_processor := fft_p_init fft_size sample_rate hop |} in
  (* Initialize all arrays with zeros *)
  do self <- stft_p_reset self;
  (* Window combination initialization *)
  do self <- stft_p_pre_and_post_window self;
  (* Spectral processor related *)
  Some (set_fft_processor (fft_p_init (fft_size) sample_rate hop) self).

(** [stft_p_init(sample_rate)] with the values the source hardcodes. *)
Definition stft_p_init (sample_rate : Z) : option STFTprocessor :=
  stft_p_init_with FFT_SIZE BLOCK_SIZE INPUT_WINDOW_TYPE OUTPUT_WINDOW_TYPE
    OVERLAP_FACTOR sample_rate.

(** One iteration of the loop of [stft_p_run], on sample [k]. *)
Definition stft_p_run_body (input : list float) (enable : float) (k : Z)
    (st : STFTprocessor * list float) : option (STFTprocessor * list float) :=
  let '(self, output) := st in
  (* Read samples given by the host and write samples to the host *)
  do x <- rd input k;
  do fifo <- wr (in_fifo self) (read_position self) x;
  let self := set_in_fifo fifo self in
  do y <- rd (out_fifo self) (read_position self - input_latency self);
  do output <- wr output k y;
  let self := set_read_position (read_position self + 1) self in
  if block_size self <=? read_position self then
    (* Fill the buffer and reset the read position *)
    do buf <- memcpy (input_fft_buffer self) (in_fifo self) (block_size self);
    let self := set_input_fft_buffer buf self in
    let self := set_read_position (input_latency self) self in
    (* Do analysis *)
    do self <- stft_p_analysis self;
    (* Do processing *)
    do self <- stft_p_processing self enable;
    (* Do synthesis *)
    do self <- stft_p_synthesis self;
    Some (self, output)
  else Some (self, output).

(** Runs the STFT processing for the given signal by the host. *)
Definition stft_p_run (self : STFTprocessor) (n_samples : Z)
    (input output : list float) (enable : float)
    : option (STFTprocessor * list float) :=
  for_lt 0 n_samples (stft_p_run_body input enable) (self, output).

(** ** What the operations compute on a well-formed processor

    The same operations with every loop written as the list operation it
    performs.  The theory below proves that on a well-formed processor the
    code returns exactly these values. *)

(** The window types [fft_window] is called for. *)
Definition window_known (window_type : Z) : bool :=
  (0 <=? window_type) && (window_type <=? 3).

(** A window array after [stft_p_pre_and_post_window]: [N] generated
    coefficients stored at the front of what the array held. *)
Definition window_after (old : list float) (window_type N : Z) : list float :=
  if window_known window_type
  then splice old 0 (tabulate N (window_sample window_type N))
  else old.

Definition pre_and_post_window_result (self : STFTprocessor) : STFTprocessor :=
  let win := window_after (input_window self) (window_option_input self)
               (block_size self) in
  let wout := window_after (output_window self) (window_option_output self)
                (block_size self) in
  let n := Z.to_nat (block_size self) in
  set_overlap_scale_factor
    (F32.div (inner_product (take n win) (take n wout))
       (F32.of_int (block_size self)))
    (set_output_window wout (set_input_window win self)).

Definition zeros (n : Z) : list float := replicate (Z.to_nat n) F32.zero.

Definition reset_result (self : STFTprocessor) : STFTprocessor :=
  set_output_accum (zeros (block_size self * 2))
    (set_out_fifo (zeros (block_size self))
       (set_in_fifo (zeros (block_size self))
          (set_output_window (zeros (fft_size self))
             (set_input_window (zeros (fft_size self))
                (set_output_fft_buffer (zeros (fft_size self))
                   (set_input_fft_buffer (zeros (fft_size self)) self)))))).

Definition zeropad_result (self : STFTprocessor) : STFTprocessor :=
  set_input_fft_buffer
    (splice (input_fft_buffer self) (Z.to_nat (block_size self - 1))
       (zeros (fft_size self - block_size self))) self.

Definition analysis_result (self : STFTprocessor) : STFTprocessor :=
  let self := if block_size self <? fft_size self
              then zeropad_result self else self in
  let windowed := zip_with F32.mul (input_fft_buffer self) (input_window self) in
  set_output_fft_buffer (tabulate (fft_size self) (r2hc windowed))
    (set_input_fft_buffer windowed self).

Definition processing_result (self : STFTprocessor) (enable : float)
    : STFTprocessor :=
  set_fft_processor
    (fft_p_run_state (fft_processor self) (output_fft_buffer self) enable)
    (set_output_fft_buffer
       (tabulate (fft_size self)
          (fft_p_run_spectrum (fft_processor self) (output_fft_buffer self)
             enable)) self).

(** One synthesized sample: inverse transform output [x], normalized,
    windowed by [w] and scaled. *)
Definition synthesis_sample (self : STFTprocessor) (w x : float) : float :=
  F32.div (F32.mul w (F32.div x (F32.of_int (fft_size self))))
    (F32.mul (overlap_scale_factor self) (F32.of_int (overlap_factor self))).

Definition synthesis_result (self : STFTprocessor) : STFTprocessor :=
  let spectrum := output_fft_buffer self in
  let time := tabulate (fft_size self) (hc2r spectrum) in
  let scaled := zip_with (synthesis_sample self) (output_window self) time in
  let n := Z.to_nat (block_size self) in
  let h := Z.to_nat (hop self) in
  let l := Z.to_nat (input_latency self) in
  let accum := zip_with F32.add (take n (output_accum self)) (take n scaled)
               ++ drop n (output_accum self) in
  set_in_fifo (take l (drop h (in_fifo self)) ++ drop l (in_fifo self))
    (set_output_accum (take n (drop h accum) ++ drop n accum)
       (set_out_fifo (take h accum ++ drop h (out_fifo self))
          (set_input_fft_buffer scaled
             (set_output_fft_buffer
                (tabulate (fft_size self) (hc2r_scratch spectrum)) self)))).

(** One analysis, processing and synthesis cycle of [stft_p_run], from the
    state in which the input FIFO has just become full. *)
Definition cycle_result (self : STFTprocessor) (enable : float)
    : STFTprocessor :=
  let n := Z.to_nat (block_size self) in
  let self := set_input_fft_buffer
                (take n (in_fifo self) ++ drop n (input_fft_buffer self))
                self in
  let self := set_read_position (input_latency self) self in
  synthesis_result (processing_result (analysis_result self) enable).

(** Is a cycle due once the sample at the current read position is stored? *)
Definition cycle_due (self : STFTprocessor) : bool :=
  block_size self <=? read_position self + 1.

(** The processor at the point where [stft_p_run] calls the analysis: the
    sample [x] stored at the read position, the input FIFO copied to the
    time-domain buffer and the read position back at the latency. *)
Definition frame_copied (self : STFTprocessor) (x : float) : STFTprocessor :=
  let self := set_in_fifo
                (<[Z.to_nat (read_position self) := x]> (in_fifo self))
                self in
  let self := set_read_position (read_position self + 1) self in
  let self := set_input_fft_buffer
                (take (Z.to_nat (block_size self)) (in_fifo self)
                 ++ drop (Z.to_nat (block_size self)) (input_fft_buffer self))
                self in
  set_read_position (input_latency self) self.

(** One sample in, one sample out. *)
Definition sample_result (self : STFTprocessor) (x enable : float)
    : STFTprocessor * float :=
  let y := nth_float (out_fifo self)
             (read_position self - input_latency self) in
  let self' := set_read_position (read_position self + 1)
                 (set_in_fifo
                    (<[Z.to_nat (read_position self) := x]> (in_fifo self))
                    self) in
  (if cycle_due self then cycle_result self' enable else self', y).

(** A whole signal, sample by sample. *)
Fixpoint samples_result (self : STFTprocessor) (xs : list float)
    (enable : float) : STFTprocessor * list float :=
  match xs with
  | [] => (self, [])
  | x :: xs =>
      let '(self, y) := sample_result self x enable in
      let '(self, ys) := samples_result self xs enable in
      (self, y :: ys)
  end.

(** The configurations [stft_p_init_with] accepts without leaving an
    array: the block is the whole transform and the hop is positive. *)
Definition valid_configuration (FFT_SIZE BLOCK_SIZE OVERLAP_FACTOR : Z) : Prop :=
  BLOCK_SIZE = FFT_SIZE ∧ OVERLAP_FACTOR ≠ 0
  ∧ 0 < FFT_SIZE `quot` OVERLAP_FACTOR ≤ FFT_SIZE.

(** The processor as [stft_p_init_with] has it right after the allocations. *)
Definition init_allocated (FFT_SIZE BLOCK_SIZE INPUT_WINDOW_TYPE
    OUTPUT_WINDOW_TYPE OVERLAP_FACTOR : Z) (sample_rate : Z) : STFTprocessor :=
  let hop := FFT_SIZE `quot` OVERLAP_FACTOR in
  {| fft_size := FFT_SIZE;
     forward := fftwf_plan_r2r_1d FFT_SIZE FFTW_R2HC;
     backward := fftwf_plan_r2r_1d FFT_SIZE FFTW_HC2R;
     block_size := BLOCK_SIZE;
     window_option_input := INPUT_WINDOW_TYPE;
     window_option_output := OUTPUT_WINDOW_TYPE;
     overlap_factor := OVERLAP_FACTOR;
     overlap_scale_factor := uninitialized 0;
     hop := hop; input_latency := FFT_SIZE - hop;
     read_position := FFT_SIZE - hop;
     input_window := tabulate FFT_SIZE uninitialized;
     output_window := tabulate FFT_SIZE uninitialized;
     in_fifo := tabulate BLOCK_SIZE uninitialized;
     out_fifo := tabulate BLOCK_SIZE uninitialized;
     output_accum := tabulate (BLOCK_SIZE * 2) uninitialized;
     input_fft_buffer := tabulate FFT_SIZE uninitialized;
     output_fft_buffer := tabulate FFT_SIZE uninitialized;
     fft_processor := fft_p_init FFT_SIZE sample_rate hop |}.

Definition init_result (FFT_SIZE BLOCK_SIZE INPUT_WINDOW_TYPE
    OUTPUT_WINDOW_TYPE OVERLAP_FACTOR : Z) (sample_rate : Z) : STFTprocessor :=
  set_fft_processor
    (fft_p_init FFT_SIZE sample_rate (FFT_SIZE `quot` OVERLAP_FACTOR))
    (pre_and_post_window_result
       (reset_result
          (init_allocated FFT_SIZE BLOCK_SIZE INPUT_WINDOW_TYPE
             OUTPUT_WINDOW_TYPE OVERLAP_FACTOR sample_rate))).

(** ** Well-formed processors

    The facts about a processor under which no operation leaves its
    arrays: the plans and the array lengths are those [stft_p_init] sets up,
    the latency and the hop make up the block, and the read position is
    inside the input FIFO. *)

Record wf (self : STFTprocessor) : Prop := {
  wf_forward : forward self = fftwf_plan_r2r_1d (fft_size self) FFTW_R2HC;
  wf_backward : backward self = fftwf_plan_r2r_1d (fft_size self) FFTW_HC2R;
  wf_input_window : len (input_window self) = fft_size self;
  wf_output_window : len (output_window self) = fft_size self;
  wf_in_fifo : len (in_fifo self) = block_size self;
  wf_out_fifo : len (out_fifo self) = block_size self;
  wf_output_accum : len (output_accum self) = block_size self * 2;
  wf_input_fft_buffer : len (input_fft_buffer self) = fft_size self;
  wf_output_fft_buffer : len (output_fft_buffer self) = fft_size self;
  wf_block : block_size self ≤ fft_size self;
  wf_hop : 0 ≤ hop self;
  wf_latency : 0 ≤ input_latency self;
  wf_fit : input_latency self + hop self = block_size self;
  wf_position : input_latency self ≤ read_position self < block_size self
}.

(** The array lengths alone, for the operations that only fill arrays. *)
Record allocated (self : STFTprocessor) : Prop := {
  al_input_window : len (input_window self) = fft_size self;
  al_output_window : len (output_window self) = fft_size self;
  al_in_fifo : len (in_fifo self) = block_size self;
  al_out_fifo : len (out_fifo self) = block_size self;
  al_output_accum : len (output_accum self) = block_size self * 2;
  al_input_fft_buffer : len (input_fft_buffer self) = fft_size self;
  al_output_fft_buffer : len (output_fft_buffer self) = fft_size self;
  al_block : block_size self ≤ fft_size self
}.

(** ** The lifetime of a processor *)

(** What is fixed at initialization. *)
Definition configuration (self : STFTprocessor) :=
  (fft_size self, block_size self, overlap_factor self, hop self,
   input_latency self, window_option_input self, window_option_output self,
   forward self, backward self).

(** The public operations that act on an initialized processor.
    [stft_p_get_latency] only reads it. *)
Inductive operation : Type :=
  | Run (n_samples : Z) (input output : list float) (enable : float)
  | Reset.

Definition is_run (op : operation) : bool :=
  match op with Run _ _ _ _ => true | Reset => false end.

Definition perform (self : STFTprocessor) (op : operation)
    : option STFTprocessor :=
  match op with
  | Run n_samples input output enable =>
      do (self', _) <- stft_p_run self n_samples input output enable;
      Some self'
  | Reset => stft_p_reset self
  end.

Fixpoint perform_all (self : STFTprocessor) (ops : list operation)
    : option STFTprocessor :=
  match ops with
  | [] => Some self
  | op :: ops => do self' <- perform self op; perform_all self' ops
  end.

(** The calls that stay inside the arrays the caller passes. *)
Definition in_bounds (op : operation) : bool :=
  match op with
  | Run n_samples input output _ =>
      (n_samples <=? len input) && (n_samples <=? len output)
  | Reset => true
  end.

(** The samples queued in the input FIFO, oldest first. *)
Definition pending (self : STFTprocessor) : list float :=
  take (Z.to_nat (read_position self)) (in_fifo self).

(** The window of a type and a length, as a function of these two alone. *)
Definition window_of (window_type N : Z) : list float :=
  if window_known window_type
  then tabulate N (window_sample window_type N)
  else zeros N.

(** Both windows are the windows of their type for the transform size. *)
Definition windows_generated (self : STFTprocessor) : Prop :=
  input_window self = window_of (window_option_input self) (fft_size self)
  ∧ output_window self
    = window_of (window_option_output self) (fft_size self).

(** A signal fed block by block, each block in a call of its own. *)
Fixpoint stft_p_run_blocks (self : STFTprocessor) (blocks : list (list float))
    (enable : float) : option (STFTprocessor * list float) :=
  match blocks with
  | [] => Some (self, [])
  | block :: blocks =>
      do (self, ys) <- stft_p_run self (len block) block (zeros (len block))
                         enable;
      do (self, yss) <- stft_p_run_blocks self blocks enable;
      Some (self, ys ++ yss)
  end.

(** The windows, the scale factor and the five signal arrays. *)
Definition arrays (self : STFTprocessor) :=
  (input_window self, output_window self, overlap_scale_factor self,
   in_fifo self, out_fifo self, output_accum self, input_fft_buffer self,
   output_fft_buffer self).

(** The transforms and the spectral stage act sample by sample: the inverse
    transform of what the stage makes of the forward transform of a frame
    has, at every index, a value [g n k x] that depends on the frame only
    through its length [n] and its sample [x] at that index [k].  (For an
    identity stage and exact transforms, [g n k x] is [n] times [x].) *)
Definition samplewise (g : Z → Z → float → float) : Prop :=
  ∀ (p : FFTprocessor) (frame : list float) (enable : float) (k : Z),
    0 ≤ k < len frame →
    hc2r (tabulate (len frame)
            (fft_p_run_spectrum p (tabulate (len frame) (r2hc frame)) enable))
      k
    = g (len frame) k (nth_float frame k).

(** Two processors in the same configuration and at the same read position
    that hold the same output FIFO and agree on the first [m] entries of the
    input FIFO and of the output accumulator. *)
Record agree (m : nat) (s t : STFTprocessor) : Prop := {
  ag_configuration : configuration s = configuration t;
  ag_full : block_size s = fft_size s;
  ag_read_position : read_position s = read_position t;
  ag_input_window : input_window s = input_window t;
  ag_output_window : output_window s = output_window t;
  ag_scale : overlap_scale_factor s = overlap_scale_factor t;
  ag_out_fifo : out_fifo s = out_fifo t;
  ag_in_fifo : take m (in_fifo s) = take m (in_fifo t);
  ag_accum : take m (output_accum s) = take m (output_accum t);
  ag_bound : (m ≤ Z.to_nat (input_latency s))%nat
}.

(** A sample that carries no signal: a zero of either sign or a NaN. *)
Definition silent (x : float) : bool :=
  match x with
  | S754_zero _ | S754_nan => true
  | _ => false
  end.

(** A processor whose output path carries no signal: the output window is
    all zeros, and the output FIFO and the accumulator hold silent samples
    only. *)
Definition silenced (self : STFTprocessor) : Prop :=
  output_window self = zeros (fft_size self)
  ∧ Forall silent (out_fifo self)
  ∧ Forall silent (output_accum self).

(** The two windows and the lengths of the five signal arrays. *)
Definition shape (self : STFTprocessor) :=
  (input_window self, output_window self, length (in_fifo self),
   length (out_fifo self), length (output_accum self),
   length (input_fft_buffer self), length (output_fft_buffer self)).

(** The FIFO bookkeeping of a processor. *)
Definition bookkeeping (self : STFTprocessor) :=
  (read_position self, in_fifo self, block_size self, hop self,
   input_latency self).

(** For a signal fed one sample per call: at which samples a cycle ran. *)
Fixpoint cycle_trace (self : STFTprocessor) (xs : list float) (enable : float)
    : option (list bool) :=
  match xs with
  | [] => Some []
  | x :: xs =>
      do (self', _) <- stft_p_run self 1 [x] [F32.zero] enable;
      do trace <- cycle_trace self' xs enable;
      Some (cycle_due self :: trace)
  end.

End STFT.

(** ** A loopback instance of the collaborators

    Transforms with the unnormalised round trip of FFTW (the inverse of the
    forward transform of [n] samples is [n] times the samples), a spectral
    stage that leaves the spectrum as it is, and a rectangular window.  All
    of it computes, so the processor can be run on concrete signals. *)

Definition loopback : Externals := {|
  FFTprocessor := unit;
  uninitialized := λ _, S754_nan;
  window_sample := λ _ _ _, F32.of_int 1;
  r2hc := nth_float;
  hc2r := λ l k, F32.mul (nth_float l k) (F32.of_int (len l));
  hc2r_scratch := λ _ _, S754_nan;
  fft_p_init := λ _ _ _, tt;
  fft_p_run_state := λ _ _ _, tt;
  fft_p_run_spectrum := λ _ l _ k, nth_float l k
|}.

(** A small configuration of the loopback processor: transform and block of
    8 samples, overlap factor 4, hence a hop of 2 and a reported latency
    of 6. *)
Definition small : @STFTprocessor loopback := init_result 8 8 3 3 4 44100.

(** The signal 1, 2, 3, ... *)
Definition ramp (n : Z) : list float := F32.of_int <$> seqZ 1 n.

Definition one : float := F32.of_int 1.

(** A loopback processor whose block (4 samples) is shorter than the
    transform (8 samples), with the frame 1, 2, ..., 8 in the time-domain
    buffer. *)
Definition padded : @STFTprocessor loopback :=
  set_input_fft_buffer (ramp 8) (init_result 8 4 3 3 4 44100).

(** Three samples, a reset in mid-stream, two more samples. *)
Definition small_session : list operation :=
  [Run 3 (ramp 3) (zeros 3) one; Reset; Run 2 (ramp 2) (zeros 2) one].

(** ** A recording instance of the collaborators

    The loopback transforms and window, with a spectral stage that keeps
    the flags it is called with, oldest first, and multiplies the spectrum
    by the flag. *)

Definition recording : Externals := {|
  FFTprocessor := list float;
  uninitialized := λ _, S754_nan;
  window_sample := λ _ _ _, F32.of_int 1;
  r2hc := nth_float;
  hc2r := λ l k, F32.mul (nth_float l k) (F32.of_int (len l));
  hc2r_scratch := λ _ _, S754_nan;
  fft_p_init := λ _ _ _, [];
  fft_p_run_state := λ p _ enable, p ++ [enable];
  fft_p_run_spectrum := λ _ l enable k, F32.mul enable (nth_float l k)
|}.

(** The small configuration of the recording processor. *)
Definition small_recording : @STFTprocessor recording :=
  init_result 8 8 3 3 4 44100.

(** * Properties *)

Section Loops.

Context {S : Type}.
Implicit Types (body : Z → S → option S) (s : S).

Lemma for_loop_app n m k body s :
  for_loop (n + m) k body s
  = do t <- for_loop n k body s; for_loop m (k + Z.of_nat n) body t.
Proof.
  revert k s. induction n as [|n IH]; intros k s; simpl.
  - by rewrite Z.add_0_r.
  - destruct (body k s) as [s1|]; simpl; [|done].
    rewrite IH.
    by replace (k + Z.of_nat (Datatypes.S n)) with (k + 1 + Z.of_nat n) by lia.
Qed.

Lemma for_loop_ext n k body body' s :
  (∀ j s, k ≤ j < k + Z.of_nat n → body j s = body' j s) →
  for_loop n k body s = for_loop n k body' s.
Proof.
  revert k s. induction n as [|n IH]; intros k s Hb; simpl; [done|].
  rewrite Hb by lia. destruct (body' k s) as [s1|]; simpl; [|done].
  apply IH. intros j s2 Hj. apply Hb. lia.
Qed.

(** The loop rule: an invariant that every iteration re-establishes holds at
    the end, and the loop does return. *)
Lemma for_loop_inv (I : Z → S → Prop) n k body s :
  I k s →
  (∀ j s, k ≤ j < k + Z.of_nat n → I j s →
     ∃ s', body j s = Some s' ∧ I (j + 1) s') →
  ∃ s', for_loop n k body s = Some s' ∧ I (k + Z.of_nat n) s'.
Proof.
  revert k s. induction n as [|n IH]; intros k s HI Hb; simpl.
  - exists s. by rewrite Z.add_0_r.
  - destruct (Hb k s) as (s1 & -> & HI1); [lia|done|]. simpl.
    destruct (IH (k + 1) s1) as (s2 & -> & HI2); [done| |].
    + intros j s3 Hj. apply Hb. lia.
    + exists s2. split; [done|]. by replace (k + Z.of_nat (Datatypes.S n))
        with (k + 1 + Z.of_nat n) by lia.
Qed.

End Loops.

Section Arrays.

Implicit Types (a vs : list float) (i j off : nat) (v : float).

Lemma rd_nat a i : rd a (Z.of_nat i) = a !! i.
Proof.
  unfold rd. destruct (Z.ltb_spec (Z.of_nat i) 0); [lia|].
  by rewrite Nat2Z.id.
Qed.

Lemma rd_Some a k v : rd a k = Some v → 0 ≤ k < len a ∧ a !! Z.to_nat k = Some v.
Proof.
  unfold rd, len. destruct (Z.ltb_spec k 0); [done|]. intros Hv.
  apply lookup_lt_Some in Hv as Hlt. split; [lia|done].
Qed.

Lemma wr_nat a i v :
  (i < length a)%nat → wr a (Z.of_nat i) v = Some (<[i:=v]> a).
Proof.
  intros Hi. unfold wr.
  destruct (Z.leb_spec 0 (Z.of_nat i)); [|lia].
  destruct (Z.ltb_spec (Z.of_nat i) (Z.of_nat (length a))); [|lia].
  by rewrite Nat2Z.id.
Qed.

Lemma wr_Some a k v a' :
  wr a k v = Some a' → 0 ≤ k < len a ∧ a' = <[Z.to_nat k := v]> a.
Proof.
  unfold wr, len. destruct (Z.leb_spec 0 k); [|done].
  destruct (Z.ltb_spec k (Z.of_nat (length a))); [|done].
  simpl. intros [= <-]. split; [lia|done].
Qed.

Lemma wr_length a k v a' : wr a k v = Some a' → length a' = length a.
Proof. intros [_ ->]%wr_Some. apply length_insert. Qed.

Lemma wr_len a k v a' : wr a k v = Some a' → len a' = len a.
Proof. intros H. unfold len. by rewrite (wr_length _ _ _ _ H). Qed.

Lemma splice_nil a off : splice a off [] = a.
Proof. unfold splice. simpl. rewrite Nat.add_0_r. apply take_drop. Qed.

Lemma length_splice a off vs :
  (off + length vs ≤ length a)%nat → length (splice a off vs) = length a.
Proof.
  intros H. unfold splice.
  rewrite !length_app, length_take, length_drop. lia.
Qed.

Lemma lookup_splice_lt a off vs i :
  (i < off)%nat → (off ≤ length a)%nat → splice a off vs !! i = a !! i.
Proof.
  intros Hi Ho. unfold splice.
  rewrite lookup_app_l by (rewrite length_take; lia).
  by rewrite lookup_take_lt.
Qed.

Lemma lookup_splice_mid a off vs i :
  (off ≤ length a)%nat → (off ≤ i < off + length vs)%nat →
  splice a off vs !! i = vs !! (i - off)%nat.
Proof.
  intros Ho Hi. unfold splice.
  rewrite lookup_app_r by (rewrite length_take; lia).
  rewrite length_take, Nat.min_l by lia.
  by rewrite lookup_app_l by lia.
Qed.

Lemma lookup_splice_ge a off vs i :
  (off + length vs ≤ length a)%nat → (off + length vs ≤ i)%nat →
  splice a off vs !! i = a !! i.
Proof.
  intros Ho Hi. unfold splice.
  rewrite lookup_app_r by (rewrite length_take; lia).
  rewrite length_take, Nat.min_l by lia.
  rewrite lookup_app_r by lia.
  rewrite lookup_drop. f_equal. lia.
Qed.

Lemma splice_snoc a off vs v :
  (off + length vs < length a)%nat →
  <[(off + length vs)%nat := v]> (splice a off vs) = splice a off (vs ++ [v]).
Proof.
  intros H. unfold splice.
  rewrite insert_app_r_alt by (rewrite length_take; lia).
  rewrite length_take, Nat.min_l by lia.
  rewrite insert_app_r_alt by lia.
  replace (off + length vs - off - length vs)%nat with 0%nat by lia.
  rewrite length_app. simpl.
  rewrite <- (assoc_L (++) vs [v]). do 2 f_equal.
  destruct (lookup_lt_is_Some_2 a (off + length vs)) as [x Hx]; [lia|].
  rewrite (drop_S _ _ _ Hx). simpl. do 2 f_equal. lia.
Qed.

Lemma splice_all a vs : length vs = length a → splice a 0 vs = vs.
Proof.
  intros H. unfold splice. simpl. rewrite H, drop_all. apply app_nil_r.
Qed.

(** A loop that stores one value per iteration, front to back, where the
    value of iteration [j] is read from entries that are not yet overwritten:
    the array ends up with the block of those values spliced in. *)
Lemma for_loop_fill (body : Z → list float → option (list float)) a off vs :
  (off + length vs ≤ length a)%nat →
  (∀ j v, vs !! j = Some v →
     body (Z.of_nat j) (splice a off (take j vs))
     = wr (splice a off (take j vs)) (Z.of_nat (off + j)) v) →
  for_loop (length vs) 0 body a = Some (splice a off vs).
Proof.
  intros Hlen Hbody.
  assert (∀ m j, (j + m)%nat = length vs →
    for_loop m (Z.of_nat j) body (splice a off (take j vs))
    = Some (splice a off vs)) as Hgen.
  { induction m as [|m IH]; intros j Hj; simpl.
    - by rewrite take_ge by lia.
    - destruct (lookup_lt_is_Some_2 vs j) as [v Hv]; [lia|].
      rewrite (Hbody _ _ Hv).
      rewrite wr_nat
        by (rewrite length_splice by (rewrite length_take; lia); lia).
      simpl.
      assert (length (take j vs) = j) as Hl by (rewrite length_take; lia).
      pose proof (splice_snoc a off (take j vs) v) as Hs.
      rewrite Hl in Hs. rewrite Hs by lia.
      rewrite <- (take_S_r _ _ _ Hv).
      replace (Z.of_nat j + 1) with (Z.of_nat (Datatypes.S j)) by lia.
      apply IH. lia. }
  specialize (Hgen (length vs) 0%nat eq_refl).
  by rewrite splice_nil in Hgen.
Qed.

End Arrays.

(** ** The loops of the processor, as list operations *)

Section ArrayLoops.

Implicit Types (a b u : list float) (n off h : nat) (v : float).

Lemma length_tabulate (n : Z) f : length (tabulate n f) = Z.to_nat n.
Proof. unfold tabulate. by rewrite length_fmap, length_seqZ. Qed.

Lemma lookup_tabulate (n : Z) f j :
  (j < Z.to_nat n)%nat → tabulate n f !! j = Some (f (Z.of_nat j)).
Proof.
  intros Hj. unfold tabulate. rewrite list_lookup_fmap.
  rewrite lookup_seqZ_lt by lia. simpl. f_equal.
Qed.

Lemma tabulate_ext (n : Z) (f f' : Z → float) :
  (∀ k, 0 ≤ k < n → f k = f' k) → tabulate n f = tabulate n f'.
Proof.
  intros H. apply list_eq. intros i.
  destruct (decide (i < Z.to_nat n)%nat) as [Hi|Hi].
  - rewrite !lookup_tabulate by done. f_equal. apply H. lia.
  - rewrite !lookup_ge_None_2; [done| |]; rewrite length_tabulate; lia.
Qed.

(** [for (k = 0; k < n; k++) a[c + k] = v;] *)
Lemma loop_store_const a (c : Z) off n v :
  c = Z.of_nat off → (off + n ≤ length a)%nat →
  for_loop n 0 (λ k a, wr a (c + k) v) a = Some (splice a off (replicate n v)).
Proof.
  intros -> Hlen.
  rewrite <- (length_replicate n v) at 1.
  apply for_loop_fill; [by rewrite length_replicate|].
  intros j x [-> _]%lookup_replicate. f_equal. lia.
Qed.

(** [for (k = 0; k < n; k++) a[k] = f(k);] *)
Lemma loop_store_tabulate a (n : Z) (f : Z → float) :
  (Z.to_nat n ≤ length a)%nat →
  for_loop (Z.to_nat n) 0 (λ k a, wr a k (f k)) a
  = Some (splice a 0 (tabulate n f)).
Proof.
  intros Hlen.
  rewrite <- (length_tabulate n f) at 1.
  apply for_loop_fill; [by rewrite length_tabulate|].
  intros j x Hx. pose proof (lookup_lt_Some _ _ _ Hx) as Hj.
  rewrite length_tabulate in Hj. rewrite lookup_tabulate in Hx by done.
  by injection Hx as <-.
Qed.

(** [for (k = 0; k < n; k++) b[k] = g(b[k], u[k]);] *)
Lemma loop_zip_in_place b u n (g : float → float → float) :
  (n ≤ length b)%nat → (n ≤ length u)%nat →
  for_loop n 0 (λ k b, do x <- rd b k; do w <- rd u k; wr b k (g x w)) b
  = Some (splice b 0 (zip_with g (take n b) (take n u))).
Proof.
  intros Hb Hu.
  assert (length (zip_with g (take n b) (take n u)) = n) as Hl
    by (rewrite length_zip_with, !length_take; lia).
  rewrite <- Hl at 1.
  apply for_loop_fill; [lia|].
  intros j v Hv. pose proof (lookup_lt_Some _ _ _ Hv) as Hj.
  apply lookup_zip_with_Some in Hv as (x & w & -> & Hx & Hw).
  rewrite lookup_take_lt in Hx, Hw by lia.
  rewrite !rd_nat.
  rewrite lookup_splice_ge
    by (simpl; rewrite ?length_take, ?length_zip_with, ?length_take; lia).
  rewrite Hx, Hw. done.
Qed.

(** [for (k = 0; k < n; k++) b[k] = g(b[k]);] *)
Lemma loop_map_in_place b n (g : float → float) :
  (n ≤ length b)%nat →
  for_loop n 0 (λ k b, do x <- rd b k; wr b k (g x)) b
  = Some (splice b 0 (g <$> take n b)).
Proof.
  intros Hb.
  assert (length (g <$> take n b) = n) as Hl
    by (rewrite length_fmap, length_take; lia).
  rewrite <- Hl at 1.
  apply for_loop_fill; [lia|].
  intros j v Hv. pose proof (lookup_lt_Some _ _ _ Hv) as Hj.
  rewrite list_lookup_fmap in Hv.
  destruct (take n b !! j) as [x|] eqn:Hx; [|done]. injection Hv as <-.
  rewrite lookup_take_lt in Hx by lia.
  rewrite rd_nat.
  rewrite lookup_splice_ge
    by (simpl; rewrite ?length_take, ?length_fmap, ?length_take; lia).
  by rewrite Hx.
Qed.

(** [for (k = 0; k < n; k++) b[k] = u[k];] *)
Lemma loop_copy b u n :
  (n ≤ length b)%nat → (n ≤ length u)%nat →
  for_loop n 0 (λ k b, do x <- rd u k; wr b k x) b = Some (splice b 0 (take n u)).
Proof.
  intros Hb Hu.
  assert (length (take n u) = n) as Hl by (rewrite length_take; lia).
  rewrite <- Hl at 1.
  apply for_loop_fill; [lia|].
  intros j v Hv. rewrite rd_nat.
  apply lookup_take_Some in Hv as [Hv _]. by rewrite Hv.
Qed.

(** [for (k = 0; k < n; k++) b[k] = b[k + h];] *)
Lemma loop_shift_down b n (c : Z) h :
  c = Z.of_nat h → (n + h ≤ length b)%nat →
  for_loop n 0 (λ k b, do x <- rd b (k + c); wr b k x) b
  = Some (splice b 0 (take n (drop h b))).
Proof.
  intros -> Hb.
  assert (length (take n (drop h b)) = n) as Hl
    by (rewrite length_take, length_drop; lia).
  rewrite <- Hl at 1.
  apply for_loop_fill; [lia|].
  intros j v Hv. pose proof (lookup_lt_Some _ _ _ Hv) as Hj.
  apply lookup_take_Some in Hv as [Hv _]. rewrite lookup_drop in Hv.
  replace (Z.of_nat j + Z.of_nat h) with (Z.of_nat (h + j)) by lia.
  rewrite rd_nat.
  rewrite lookup_splice_ge
    by (simpl; rewrite ?length_take, ?length_take, ?length_drop; lia).
  by rewrite Hv.
Qed.

(** [for (i = 0; i < n; i++) sum += u[i] * w[i];] *)
Lemma loop_inner_product u w n (sum : float) :
  (n ≤ length u)%nat → (n ≤ length w)%nat →
  for_loop n 0
    (λ i sum, do x <- rd u i; do y <- rd w i; Some (F32.add sum (F32.mul x y))) sum
  = Some (inner_product_from sum (take n u) (take n w)).
Proof.
  induction n as [|n IH]; intros Hu Hw; [done|].
  replace (Datatypes.S n) with (n + 1)%nat by lia.
  rewrite for_loop_app, IH by lia. simpl. rewrite Z.add_0_l.
  destruct (lookup_lt_is_Some_2 u n) as [x Hx]; [lia|].
  destruct (lookup_lt_is_Some_2 w n) as [y Hy]; [lia|].
  rewrite !rd_nat, Hx, Hy. simpl. f_equal.
  replace (n + 1)%nat with (Datatypes.S n) by lia.
  rewrite (take_S_r _ _ _ Hx), (take_S_r _ _ _ Hy).
  unfold inner_product_from.
  rewrite zip_with_app by (rewrite !length_take; lia).
  by rewrite fold_left_app.
Qed.

End ArrayLoops.

(** ** The operations on a well-formed processor *)

Section Theory.

Context {ext : Externals}.
Implicit Types (self : STFTprocessor) (a : list float).

(** Reads the fields of a processor through the assignments made to it. *)
Ltac fields :=
  cbn [fft_size forward backward block_size window_option_input
       window_option_output overlap_factor overlap_scale_factor hop
       input_latency read_position input_window output_window in_fifo
       out_fifo output_accum input_fft_buffer output_fft_buffer fft_processor
       set_overlap_scale_factor set_read_position set_input_window
       set_output_window set_in_fifo set_out_fifo set_output_accum
       set_input_fft_buffer set_output_fft_buffer set_fft_processor
       fst snd andb] in *.

Lemma len_nonneg a : 0 ≤ len a.
Proof. unfold len. lia. Qed.

Lemma length_zeros n : length (zeros n) = Z.to_nat n.
Proof. apply length_replicate. Qed.

Lemma len_zeros n : 0 ≤ n → len (zeros n) = n.
Proof. intros H. unfold len. rewrite length_zeros. lia. Qed.

Lemma initialize_array_spec a v n :
  len a = n → initialize_array a v n = Some (replicate (Z.to_nat n) v).
Proof.
  intros <-. unfold initialize_array, for_lt, len.
  rewrite Z.sub_0_r, Nat2Z.id.
  rewrite (for_loop_ext _ _ _ (λ k a, wr a (0 + k) v))
    by (intros; by rewrite Z.add_0_l).
  rewrite (loop_store_const a 0 0 (length a) v) by (done || lia).
  f_equal. apply splice_all. by rewrite length_replicate.
Qed.

Lemma stft_p_reset_spec self :
  wf self → stft_p_reset self = Some (reset_result self).
Proof.
  intros [].
  unfold stft_p_reset.
  rewrite initialize_array_spec by done. simpl.
  rewrite initialize_array_spec by done. simpl.
  rewrite initialize_array_spec by done. simpl.
  rewrite initialize_array_spec by done. simpl.
  rewrite initialize_array_spec by done. simpl.
  rewrite initialize_array_spec by done. simpl.
  rewrite initialize_array_spec by done. done.
Qed.

Lemma wf_reset_result self : wf self → wf (reset_result self).
Proof.
  intros []. pose proof (len_nonneg (input_window self)).
  pose proof (len_nonneg (in_fifo self)).
  split; simpl; try done; apply len_zeros; lia.
Qed.

Lemma window_switch (t : Z) (f : Z → option (list float)) a :
  match t with
  | 0 => f 0 | 1 => f 1 | 2 => f 2 | 3 => f 3 | _ => Some a
  end = if window_known t then f t else Some a.
Proof.
  unfold window_known.
  destruct t as [|p|p]; [done| |done].
  destruct p as [[p|p|]|[p|p|]|]; try done; destruct p; done.
Qed.

Lemma fft_window_spec a N t :
  0 ≤ N ≤ len a →
  fft_window a N t = Some (splice a 0 (tabulate N (window_sample t N))).
Proof.
  intros HN. unfold fft_window, for_lt. rewrite Z.sub_0_r.
  apply loop_store_tabulate. unfold len in HN. lia.
Qed.

Lemma length_window_after a t N :
  0 ≤ N ≤ len a → length (window_after a t N) = length a.
Proof.
  intros HN. unfold window_after. destruct (window_known t); [|done].
  apply length_splice. rewrite length_tabulate. unfold len in HN. lia.
Qed.

Lemma stft_p_pre_and_post_window_spec self :
  wf self →
  stft_p_pre_and_post_window self = Some (pre_and_post_window_result self).
Proof.
  intros Hwf. pose proof Hwf as [].
  pose proof (len_nonneg (in_fifo self)).
  unfold stft_p_pre_and_post_window.
  rewrite (window_switch _
    (fft_window (input_window self) (block_size self))).
  assert ((if window_known (window_option_input self)
           then fft_window (input_window self) (block_size self)
                  (window_option_input self)
           else Some (input_window self))
          = Some (window_after (input_window self) (window_option_input self)
                    (block_size self))) as ->.
  { unfold window_after. destruct (window_known _); [|done].
    apply fft_window_spec. lia. }
  simpl.
  rewrite (window_switch _
    (fft_window (output_window self) (block_size self))).
  assert ((if window_known (window_option_output self)
           then fft_window (output_window self) (block_size self)
                  (window_option_output self)
           else Some (output_window self))
          = Some (window_after (output_window self) (window_option_output self)
                    (block_size self))) as ->.
  { unfold window_after. destruct (window_known _); [|done].
    apply fft_window_spec. lia. }
  simpl. unfold for_lt. rewrite Z.sub_0_r.
  rewrite loop_inner_product; [done| |].
  - rewrite length_window_after by lia. unfold len in *. lia.
  - rewrite length_window_after by lia. unfold len in *. lia.
Qed.

Lemma wf_pre_and_post_window_result self :
  wf self → wf (pre_and_post_window_result self).
Proof.
  intros []. pose proof (len_nonneg (in_fifo self)).
  split; simpl; try done; unfold len;
    rewrite length_window_after by lia; done.
Qed.

Lemma malloc_float_spec n :
  0 ≤ n → malloc_float n = Some (tabulate n uninitialized).
Proof. done. Qed.

Lemma len_tabulate n f : 0 ≤ n → len (tabulate n f) = n.
Proof. intros H. unfold len. rewrite length_tabulate. lia. Qed.

Lemma wf_init_allocated F B WI WO OV sr :
  valid_configuration F B OV → wf (init_allocated F B WI WO OV sr).
Proof.
  intros (-> & HOV & Hhop).
  split; simpl; try done; try (apply len_tabulate; lia); lia.
Qed.

Lemma stft_p_init_with_spec F B WI WO OV sr :
  valid_configuration F B OV →
  stft_p_init_with F B WI WO OV sr = Some (init_result F B WI WO OV sr).
Proof.
  intros Hv. pose proof (wf_init_allocated F B WI WO OV sr Hv) as Hwf.
  destruct Hv as (-> & HOV & Hhop).
  unfold stft_p_init_with.
  destruct (Z.eqb_spec OV 0) as [|_]; [done|]. simpl.
  rewrite ?malloc_float_spec by lia. simpl.
  change (stft_p_reset _) with
    (stft_p_reset (init_allocated F F WI WO OV sr)).
  rewrite stft_p_reset_spec by done. simpl.
  rewrite stft_p_pre_and_post_window_spec by (by apply wf_reset_result).
  done.
Qed.

Lemma wf_set_fft_processor p self : wf self → wf (set_fft_processor p self).
Proof. intros []. by split. Qed.

Lemma wf_init_result F B WI WO OV sr :
  valid_configuration F B OV → wf (init_result F B WI WO OV sr).
Proof.
  intros Hv. apply wf_set_fft_processor, wf_pre_and_post_window_result,
    wf_reset_result, wf_init_allocated, Hv.
Qed.

Lemma default_configuration_valid :
  valid_configuration FFT_SIZE BLOCK_SIZE OVERLAP_FACTOR.
Proof. by vm_compute. Qed.

(** Assignments that keep a processor well-formed. *)

Lemma wf_set_input_fft_buffer v self :
  wf self → len v = fft_size self → wf (set_input_fft_buffer v self).
Proof. intros [] ?. by split. Qed.

Lemma wf_set_output_fft_buffer v self :
  wf self → len v = fft_size self → wf (set_output_fft_buffer v self).
Proof. intros [] ?. by split. Qed.

Lemma wf_set_in_fifo v self :
  wf self → len v = block_size self → wf (set_in_fifo v self).
Proof. intros [] ?. by split. Qed.

Lemma wf_set_out_fifo v self :
  wf self → len v = block_size self → wf (set_out_fifo v self).
Proof. intros [] ?. by split. Qed.

Lemma wf_set_output_accum v self :
  wf self → len v = block_size self * 2 → wf (set_output_accum v self).
Proof. intros [] ?. by split. Qed.

Lemma wf_set_read_position v self :
  wf self → input_latency self ≤ v < block_size self →
  wf (set_read_position v self).
Proof. intros [] ?. by split. Qed.

Lemma wf_block_positive self : wf self → 1 ≤ block_size self.
Proof. intros []. lia. Qed.

Lemma splice_zip_with_full (g : float → float → float) b u (n : nat) :
  length b = n → length u = n →
  splice b 0 (zip_with g (take n b) (take n u)) = zip_with g b u.
Proof.
  intros Hb Hu. rewrite !take_ge by lia.
  apply splice_all. rewrite length_zip_with. lia.
Qed.

Lemma stft_p_zeropad_spec self :
  wf self → block_size self < fft_size self →
  stft_p_zeropad self = Some (zeropad_result self).
Proof.
  intros Hwf Hlt. pose proof (wf_block_positive _ Hwf). destruct Hwf.
  unfold stft_p_zeropad, for_le.
  replace (fft_size self - block_size self - 1 + 1 - 0)
    with (fft_size self - block_size self) by lia.
  rewrite (loop_store_const _ _ (Z.to_nat (block_size self - 1)));
    [done|lia|].
  unfold len in *. lia.
Qed.

Lemma wf_zeropad_result self :
  wf self → block_size self < fft_size self → wf (zeropad_result self).
Proof.
  intros Hwf Hlt. pose proof (wf_block_positive _ Hwf).
  apply wf_set_input_fft_buffer; [done|]. destruct Hwf.
  unfold len in *. rewrite length_splice; [done|].
  rewrite length_zeros. lia.
Qed.

Lemma stft_p_analysis_spec self :
  wf self → stft_p_analysis self = Some (analysis_result self).
Proof.
  intros Hwf. unfold stft_p_analysis, analysis_result.
  assert ((if block_size self <? fft_size self
           then stft_p_zeropad self else Some self)
          = Some (if block_size self <? fft_size self
                  then zeropad_result self else self)) as ->.
  { destruct (Z.ltb_spec (block_size self) (fft_size self)); [|done].
    by apply stft_p_zeropad_spec. }
  assert (wf (if block_size self <? fft_size self
              then zeropad_result self else self)) as Hwf1.
  { destruct (Z.ltb_spec (block_size self) (fft_size self)); [|done].
    by apply wf_zeropad_result. }
  simpl. set (self1 := if block_size self <? fft_size self
                       then zeropad_result self else self) in *.
  clearbody self1. clear Hwf self. destruct Hwf1.
  pose proof (len_nonneg (input_window self1)).
  unfold for_lt. rewrite Z.sub_0_r.
  rewrite loop_zip_in_place by (unfold len in *; lia).
  rewrite splice_zip_with_full by (unfold len in *; lia).
  simpl. unfold fftwf_execute. rewrite wf_forward0. simpl.
  assert (len (zip_with F32.mul (input_fft_buffer self1) (input_window self1))
          = fft_size self1) as Hl.
  { unfold len in *. rewrite length_zip_with. lia. }
  unfold len in Hl. rewrite Hl.
  destruct (Z.leb_spec 0 (fft_size self1)); [|lia].
  destruct (Z.leb_spec (fft_size self1) (fft_size self1)); [|lia].
  destruct (Z.leb_spec (fft_size self1)
              (Z.of_nat (length (output_fft_buffer self1))));
    [|unfold len in *; lia].
  simpl. rewrite take_ge by lia.
  rewrite drop_ge by (unfold len in *; lia).
  by rewrite app_nil_r.
Qed.

Lemma wf_analysis_result self : wf self → wf (analysis_result self).
Proof.
  intros Hwf. unfold analysis_result.
  assert (wf (if block_size self <? fft_size self
              then zeropad_result self else self)) as Hwf1.
  { destruct (Z.ltb_spec (block_size self) (fft_size self)); [|done].
    by apply wf_zeropad_result. }
  set (self1 := if block_size self <? fft_size self
                then zeropad_result self else self) in *.
  clearbody self1. pose proof Hwf1 as [].
  pose proof (len_nonneg (input_window self1)).
  apply wf_set_output_fft_buffer; [apply wf_set_input_fft_buffer; [done|]|].
  - unfold len in *. rewrite length_zip_with. lia.
  - simpl. apply len_tabulate. lia.
Qed.

Lemma stft_p_processing_spec self enable :
  wf self → stft_p_processing self enable = Some (processing_result self enable).
Proof.
  intros []. pose proof (len_nonneg (input_window self)).
  unfold stft_p_processing, fft_p_run, processing_result.
  destruct (Z.leb_spec 0 (fft_size self)); [|lia].
  destruct (Z.leb_spec (fft_size self)
              (Z.of_nat (length (output_fft_buffer self))));
    [|unfold len in *; lia].
  simpl. rewrite take_ge by (unfold len in *; lia).
  rewrite drop_ge by (unfold len in *; lia).
  by rewrite app_nil_r.
Qed.

Lemma wf_processing_result self enable :
  wf self → wf (processing_result self enable).
Proof.
  intros Hwf. pose proof Hwf as [].
  pose proof (len_nonneg (input_window self)).
  apply wf_set_fft_processor, wf_set_output_fft_buffer; [done|].
  apply len_tabulate. lia.
Qed.

Lemma splice_front a vs (n : nat) :
  length vs = n → splice a 0 vs = vs ++ drop n a.
Proof. intros <-. done. Qed.

Lemma rd_swap (u b : list float) (k : Z) (f : float → float → option (list float)) :
  (do w <- rd u k; do x <- rd b k; f w x) = (do x <- rd b k; do w <- rd u k; f w x).
Proof. by destruct (rd u k), (rd b k). Qed.

Lemma stft_p_synthesis_spec self :
  wf self → stft_p_synthesis self = Some (synthesis_result self).
Proof.
  intros Hwf. pose proof (wf_block_positive _ Hwf). destruct Hwf.
  unfold len in *.
  unfold stft_p_synthesis, synthesis_result.
  (* inverse transform *)
  unfold fftwf_execute. rewrite wf_backward0. simpl.
  destruct (Z.leb_spec 0 (fft_size self)); [|lia].
  destruct (Z.leb_spec (fft_size self)
              (Z.of_nat (length (input_fft_buffer self)))); [|lia].
  destruct (Z.leb_spec (fft_size self)
              (Z.of_nat (length (output_fft_buffer self)))); [|lia].
  simpl. rewrite !take_ge by lia. rewrite !drop_ge by lia.
  rewrite !app_nil_r.
  set (time := tabulate (fft_size self) (hc2r (output_fft_buffer self))).
  assert (length time = Z.to_nat (fft_size self)) as Htime
    by apply length_tabulate.
  (* normalizing *)
  unfold for_lt. rewrite !Z.sub_0_r.
  rewrite loop_map_in_place by lia.
  rewrite take_ge by lia.
  rewrite splice_all by (by rewrite length_fmap).
  simpl.
  (* windowing and scaling *)
  rewrite (for_loop_ext _ _ _
    (λ k buf, do x <- rd buf k; do w <- rd (output_window self) k;
              wr buf k (F32.div (F32.mul w x)
                (F32.mul (overlap_scale_factor self)
                   (F32.of_int (overlap_factor self))))))
    by (intros; apply rd_swap).
  rewrite (loop_zip_in_place _ _ _
    (λ x w, F32.div (F32.mul w x)
       (F32.mul (overlap_scale_factor self)
          (F32.of_int (overlap_factor self)))))
    by (rewrite ?length_fmap; lia).
  rewrite splice_zip_with_full by (rewrite ?length_fmap; lia).
  simpl.
  rewrite zip_with_fmap_l.
  rewrite <- (zip_with_flip _ time (output_window self)).
  change (zip_with _ (output_window self) time)
    with (zip_with (synthesis_sample self) (output_window self) time).
  set (scaled := zip_with (synthesis_sample self) (output_window self) time).
  assert (length scaled = Z.to_nat (fft_size self)) as Hscaled
    by (unfold scaled; rewrite length_zip_with; lia).
  (* accumulation *)
  rewrite loop_zip_in_place by lia.
  rewrite (splice_front _ _ (Z.to_nat (block_size self)))
    by (rewrite length_zip_with, !length_take; lia).
  simpl.
  set (accum := zip_with F32.add
                  (take (Z.to_nat (block_size self)) (output_accum self))
                  (take (Z.to_nat (block_size self)) scaled)
                ++ drop (Z.to_nat (block_size self)) (output_accum self)).
  assert (length accum = length (output_accum self)) as Haccum.
  { unfold accum. rewrite length_app, length_zip_with, !length_take,
      length_drop. lia. }
  (* output samples up to the hop size *)
  rewrite loop_copy by lia.
  rewrite (splice_front _ _ (Z.to_nat (hop self)))
    by (rewrite length_take; lia).
  simpl.
  (* shift of the accumulator *)
  unfold memmove.
  destruct (Z.leb_spec 0 (block_size self)); [|lia].
  destruct (Z.leb_spec 0 (hop self)); [|lia].
  destruct (Z.leb_spec (0 + block_size self) (Z.of_nat (length accum)));
    [|lia].
  destruct (Z.leb_spec (hop self + block_size self)
              (Z.of_nat (length accum))); [|lia].
  simpl.
  (* move of the input FIFO *)
  rewrite loop_shift_down with (h := Z.to_nat (hop self)) by lia.
  rewrite (splice_front _ _ (Z.to_nat (input_latency self)))
    by (rewrite length_take, length_drop; lia).
  done.
Qed.

Lemma wf_synthesis_result self : wf self → wf (synthesis_result self).
Proof.
  intros Hwf. pose proof Hwf as [].
  pose proof (len_nonneg (input_window self)).
  unfold len in *. unfold synthesis_result.
  set (time := tabulate (fft_size self) (hc2r (output_fft_buffer self))).
  assert (length time = Z.to_nat (fft_size self)) as Htime
    by apply length_tabulate.
  set (scaled := zip_with (synthesis_sample self) (output_window self) time).
  assert (length scaled = Z.to_nat (fft_size self)) as Hscaled
    by (unfold scaled; rewrite length_zip_with; lia).
  set (accum := zip_with F32.add
                  (take (Z.to_nat (block_size self)) (output_accum self))
                  (take (Z.to_nat (block_size self)) scaled)
                ++ drop (Z.to_nat (block_size self)) (output_accum self)).
  assert (length accum = length (output_accum self)) as Haccum.
  { unfold accum. rewrite length_app, length_zip_with, !length_take,
      length_drop. lia. }
  apply wf_set_in_fifo; [apply wf_set_output_accum; [apply wf_set_out_fifo;
    [apply wf_set_input_fft_buffer; [apply wf_set_output_fft_buffer|]|]|]|];
    try done; simpl; unfold len.
  - rewrite length_tabulate. lia.
  - lia.
  - rewrite length_app, length_take, length_drop. lia.
  - rewrite length_app, length_take, !length_drop. lia.
  - rewrite length_app, length_take, !length_drop. lia.
Qed.

Lemma wf_cycle_result self enable :
  wf (set_read_position (input_latency self) self) →
  wf (cycle_result self enable).
Proof.
  intros Hwf. pose proof Hwf as []. simpl in *. unfold cycle_result.
  apply wf_synthesis_result, wf_processing_result, wf_analysis_result.
  apply (wf_set_input_fft_buffer _ (set_read_position _ self)); [done|].
  unfold len in *. simpl. rewrite length_app, length_take, length_drop. lia.
Qed.

Lemma nth_float_rd a k v : rd a k = Some v → nth_float a k = v.
Proof. unfold nth_float. by intros ->. Qed.

Lemma rd_nth_float a k : 0 ≤ k < len a → rd a k = Some (nth_float a k).
Proof.
  intros Hk. unfold nth_float, rd, len in *.
  destruct (Z.ltb_spec k 0); [lia|].
  destruct (lookup_lt_is_Some_2 a (Z.to_nat k)) as [v ->]; [lia|done].
Qed.

Lemma wr_spec a k v :
  0 ≤ k < len a → wr a k v = Some (<[Z.to_nat k := v]> a).
Proof.
  intros Hk. unfold wr, len in *.
  destruct (Z.leb_spec 0 k); [|lia].
  by destruct (Z.ltb_spec k (Z.of_nat (length a))); [|lia].
Qed.

(** One iteration of the loop of [stft_p_run] on a well-formed processor. *)
Lemma wf_sample_stored self x :
  wf self →
  wf (set_read_position (input_latency self)
        (set_in_fifo (<[Z.to_nat (read_position self):=x]> (in_fifo self))
           self)).
Proof.
  intros Hwf. pose proof Hwf as [].
  apply wf_set_read_position; [apply wf_set_in_fifo; [done|]|fields; lia].
  unfold len in *. rewrite length_insert. lia.
Qed.

Lemma wf_frame_copied self x :
  wf self →
  wf (set_input_fft_buffer
        (take (Z.to_nat (block_size self))
           (<[Z.to_nat (read_position self):=x]> (in_fifo self))
         ++ drop (Z.to_nat (block_size self)) (input_fft_buffer self))
        (set_read_position (input_latency self)
           (set_in_fifo (<[Z.to_nat (read_position self):=x]> (in_fifo self))
              self))).
Proof.
  intros Hwf. pose proof Hwf as [].
  apply wf_set_input_fft_buffer; [by apply wf_sample_stored|].
  fields. unfold len in *.
  rewrite length_app, length_take, length_drop, length_insert. lia.
Qed.

(** One iteration of the loop of [stft_p_run] on a well-formed processor. *)
Lemma stft_p_run_body_spec input enable k self output x :
  wf self → rd input k = Some x → 0 ≤ k < len output →
  stft_p_run_body input enable k (self, output)
  = Some ((sample_result self x enable).1,
          <[Z.to_nat k := (sample_result self x enable).2]> output).
Proof.
  intros Hwf Hx Hk.
  pose proof (wf_frame_copied self x Hwf) as Hwf2.
  assert (len (<[Z.to_nat (read_position self):=x]> (in_fifo self))
          = block_size self) as Hfifo
    by (destruct Hwf; unfold len in *; rewrite length_insert; lia).
  pose proof Hwf as [].
  unfold stft_p_run_body, sample_result, cycle_due.
  rewrite Hx. fields.
  rewrite wr_spec by lia. fields.
  rewrite (rd_nth_float (out_fifo self)) by lia.
  fields. rewrite wr_spec by done. fields.
  destruct (Z.leb_spec (block_size self) (read_position self + 1)); [|done].
  unfold memcpy. fields. fold (len (input_fft_buffer self)).
  fold (len (<[Z.to_nat (read_position self):=x]> (in_fifo self))).
  rewrite Hfifo, wf_input_fft_buffer0.
  destruct (Z.leb_spec 0 (block_size self)); [|lia].
  destruct (Z.leb_spec (block_size self) (fft_size self)); [|lia].
  destruct (Z.leb_spec (block_size self) (block_size self)); [|lia].
  fields.
  rewrite stft_p_analysis_spec by exact Hwf2. fields.
  rewrite stft_p_processing_spec by (apply wf_analysis_result, Hwf2). fields.
  rewrite stft_p_synthesis_spec
    by (apply wf_processing_result, wf_analysis_result, Hwf2).
  done.
Qed.

Lemma wf_sample_result self x enable :
  wf self → wf (sample_result self x enable).1.
Proof.
  intros Hwf. pose proof Hwf as [].
  unfold sample_result, cycle_due. fields.
  destruct (Z.leb_spec (block_size self) (read_position self + 1)).
  - apply wf_cycle_result. exact (wf_sample_stored self x Hwf).
  - apply wf_set_read_position; [apply wf_set_in_fifo; [done|]|fields; lia].
    unfold len in *. rewrite length_insert. lia.
Qed.

Lemma samples_result_cons self x xs enable :
  samples_result self (x :: xs) enable
  = ((samples_result (sample_result self x enable).1 xs enable).1,
     (sample_result self x enable).2
     :: (samples_result (sample_result self x enable).1 xs enable).2).
Proof.
  cbn [samples_result].
  destruct (sample_result self x enable) as [self1 y]. cbn [fst snd].
  by destruct (samples_result self1 xs enable) as [self2 ys].
Qed.

Lemma wf_samples_result self xs enable :
  wf self → wf (samples_result self xs enable).1.
Proof.
  revert self. induction xs as [|x xs IH]; intros self Hwf; [done|].
  rewrite samples_result_cons. apply IH. by apply wf_sample_result.
Qed.

Lemma length_samples_result self xs enable :
  length (samples_result self xs enable).2 = length xs.
Proof.
  revert self. induction xs as [|x xs IH]; intros self; [done|].
  rewrite samples_result_cons. cbn [snd length]. by rewrite IH.
Qed.

Lemma samples_result_app self xs1 xs2 enable :
  samples_result self (xs1 ++ xs2) enable
  = ((samples_result (samples_result self xs1 enable).1 xs2 enable).1,
     (samples_result self xs1 enable).2
     ++ (samples_result (samples_result self xs1 enable).1 xs2 enable).2).
Proof.
  revert self. induction xs1 as [|x xs1 IH]; intros self.
  - cbn [app samples_result fst snd].
    by destruct (samples_result self xs2 enable).
  - cbn [app]. rewrite !samples_result_cons. cbn [fst snd].
    by rewrite IH.
Qed.

(** The loop of [stft_p_run] from sample [j] on. *)
Lemma stft_p_run_loop input enable (m j : nat) self output :
  wf self → (j + m ≤ length input)%nat → (j + m ≤ length output)%nat →
  for_loop m (Z.of_nat j) (stft_p_run_body input enable) (self, output)
  = Some ((samples_result self (take m (drop j input)) enable).1,
          take j output
          ++ (samples_result self (take m (drop j input)) enable).2
          ++ drop (j + m) output).
Proof.
  revert j self output.
  induction m as [|m IH]; intros j self output Hwf Hin Hout.
  - rewrite take_0. cbn [for_loop samples_result fst snd app].
    rewrite Nat.add_0_r. by rewrite take_drop.
  - destruct (lookup_lt_is_Some_2 input j) as [x Hx]; [lia|].
    destruct (lookup_lt_is_Some_2 output j) as [o Ho]; [lia|].
    cbn [for_loop].
    rewrite (stft_p_run_body_spec _ _ _ _ _ x)
      by (rewrite ?rd_nat; unfold len; (done || lia)).
    rewrite Nat2Z.id, (drop_S _ _ _ Hx), firstn_cons.
    rewrite samples_result_cons. cbn [fst snd].
    pose proof (wf_sample_result self x enable Hwf) as Hwf1.
    destruct (sample_result self x enable) as [self1 y]. cbn [fst snd] in *.
    replace (Z.of_nat j + 1) with (Z.of_nat (Datatypes.S j)) by lia.
    rewrite IH by (rewrite ?length_insert; (done || lia)).
    do 2 f_equal.
    rewrite take_insert_lt by lia.
    rewrite drop_insert_lt by lia.
    rewrite (take_S_r _ _ _ Ho).
    rewrite insert_app_r_alt by (rewrite length_take; lia).
    rewrite length_take, Nat.min_l by lia.
    replace (j - j)%nat with 0%nat by lia. cbn [insert list_insert].
    rewrite <- (assoc_L (++)). cbn [app].
    by replace (j + Datatypes.S m)%nat with (Datatypes.S j + m)%nat by lia.
Qed.

(** [stft_p_run] on a well-formed processor: it returns, with the processor
    and the output samples that the signal yields sample by sample. *)
Lemma stft_p_run_spec self n input output enable :
  wf self → n ≤ len input → n ≤ len output →
  stft_p_run self n input output enable
  = Some ((samples_result self (take (Z.to_nat n) input) enable).1,
          (samples_result self (take (Z.to_nat n) input) enable).2
          ++ drop (Z.to_nat n) output).
Proof.
  intros Hwf Hin Hout. unfold stft_p_run, for_lt, len in *.
  rewrite Z.sub_0_r.
  by rewrite (stft_p_run_loop _ _ _ 0) by (done || lia).
Qed.

(** ** What never changes *)

(** Splits a successful sequence of fallible steps into its steps. *)
Ltac steps :=
  repeat match goal with
  | H : match ?m with Some _ => _ | None => None end = Some _ |- _ =>
      let E := fresh "E" in destruct m eqn:E; [|discriminate H]
  | H : (if ?b then _ else _) = Some _ |- _ =>
      let E := fresh "E" in destruct b eqn:E
  | H : (let (_, _) := ?p in _) = Some _ |- _ => destruct p
  | H : None = Some _ |- _ => discriminate H
  | H : Some ?x = Some ?y |- _ =>
      first [is_var y; injection H as <- | is_var x; injection H as ->]
  end.

Lemma for_loop_preserves {S : Type} (P : S → Prop) n k
    (body : Z → S → option S) s s' :
  (∀ j s s', body j s = Some s' → P s → P s') →
  for_loop n k body s = Some s' → P s → P s'.
Proof.
  intros Hb. revert k s. induction n as [|n IH]; intros k s H HP.
  - cbn [for_loop] in H. by injection H as <-.
  - cbn [for_loop] in H. destruct (body k s) as [s1|] eqn:E; [|done].
    eapply IH; [exact H|]. by eapply Hb.
Qed.

Lemma for_loop_wr_length (body : Z → list float → option (list float)) n k
    a a' :
  (∀ j b b', body j b = Some b' → length b' = length b) →
  for_loop n k body a = Some a' → length a' = length a.
Proof.
  intros Hb H.
  apply (for_loop_preserves (λ b, length b = length a) _ _ _ _ _) in H;
    [done| |done].
  intros j b b' Hj Hl. by rewrite (Hb _ _ _ Hj).
Qed.

Lemma configuration_reset self self' :
  stft_p_reset self = Some self' → configuration self' = configuration self.
Proof. unfold stft_p_reset. intros H. steps. done. Qed.

Lemma configuration_pre_and_post_window self self' :
  stft_p_pre_and_post_window self = Some self' →
  configuration self' = configuration self.
Proof. unfold stft_p_pre_and_post_window. intros H. steps. done. Qed.

Lemma configuration_analysis self self' :
  stft_p_analysis self = Some self' → configuration self' = configuration self.
Proof.
  unfold stft_p_analysis, stft_p_zeropad, fftwf_execute. intros H.
  steps; done.
Qed.

Lemma configuration_processing self self' enable :
  stft_p_processing self enable = Some self' →
  configuration self' = configuration self.
Proof. unfold stft_p_processing. intros H. steps. done. Qed.

Lemma configuration_synthesis self self' :
  stft_p_synthesis self = Some self' → configuration self' = configuration self.
Proof.
  unfold stft_p_synthesis, fftwf_execute. intros H. steps; done.
Qed.

Lemma configuration_run_body input enable k self output self' output' :
  stft_p_run_body input enable k (self, output) = Some (self', output') →
  configuration self' = configuration self.
Proof.
  unfold stft_p_run_body. intros H. steps.
  - injection H as <- <-.
    match goal with
    | Ha : stft_p_analysis _ = Some _, Hp : stft_p_processing _ _ = Some _,
      Hs : stft_p_synthesis _ = Some _ |- _ =>
        rewrite (configuration_synthesis _ _ Hs),
          (configuration_processing _ _ _ Hp), (configuration_analysis _ _ Ha)
    end.
    done.
  - by injection H as <- <-.
Qed.

Lemma configuration_run self n input output enable self' output' :
  stft_p_run self n input output enable = Some (self', output') →
  configuration self' = configuration self.
Proof.
  unfold stft_p_run, for_lt. intros H.
  apply (for_loop_preserves
           (λ st, configuration st.1 = configuration self) _ _ _ _ _) in H;
    [done| |done].
  intros j [s o] [s' o'] Hb Hs. cbn [fst] in *.
  by rewrite (configuration_run_body _ _ _ _ _ _ _ Hb).
Qed.

Lemma configuration_perform self op self' :
  perform self op = Some self' → configuration self' = configuration self.
Proof.
  destruct op as [n input output enable|]; cbn [perform]; intros H.
  - destruct (stft_p_run self n input output enable) as [[s o]|] eqn:E;
      [|done]. injection H as <-. by eapply configuration_run.
  - by apply configuration_reset.
Qed.

Lemma configuration_perform_all self ops self' :
  perform_all self ops = Some self' → configuration self' = configuration self.
Proof.
  revert self. induction ops as [|op ops IH]; intros self H;
    cbn [perform_all] in H.
  - by injection H as <-.
  - destruct (perform self op) as [s|] eqn:E; [|done].
    rewrite (IH _ H). by eapply configuration_perform.
Qed.

Lemma configuration_init_with F B WI WO OV sr self :
  stft_p_init_with F B WI WO OV sr = Some self →
  configuration self
  = (F, B, OV, F `quot` OV, F - F `quot` OV, WI, WO,
     fftwf_plan_r2r_1d F FFTW_R2HC, fftwf_plan_r2r_1d F FFTW_HC2R).
Proof.
  unfold stft_p_init_with. intros H.
  destruct (OV =? 0); [done|].
  steps.
  match goal with
  | Hr : stft_p_reset _ = Some _,
    Hw : stft_p_pre_and_post_window _ = Some ?s |- _ =>
      change (configuration s = (F, B, OV, F `quot` OV, F - F `quot` OV,
                WI, WO, fftwf_plan_r2r_1d F FFTW_R2HC,
                fftwf_plan_r2r_1d F FFTW_HC2R));
      rewrite (configuration_pre_and_post_window _ _ Hw),
        (configuration_reset _ _ Hr)
  end.
  done.
Qed.

(** ** The reported latency *)

(** C5: on a processor made by the initialization, whatever sequence of
    [run] and [reset] calls follows, [stft_p_get_latency] returns the
    transform size minus the hop, the hop being the transform size divided by
    the overlap factor; it is the value it had right after the
    initialization. *)
Theorem get_latency_constant F B WI WO OV sr self0 ops self :
  stft_p_init_with F B WI WO OV sr = Some self0 →
  perform_all self0 ops = Some self →
  stft_p_get_latency self = fft_size self - hop self
  ∧ hop self = fft_size self `quot` overlap_factor self
  ∧ fft_size self = F ∧ overlap_factor self = OV
  ∧ stft_p_get_latency self = stft_p_get_latency self0.
Proof.
  intros Hinit Hops.
  apply configuration_init_with in Hinit.
  apply configuration_perform_all in Hops. rewrite Hinit in Hops.
  unfold configuration, stft_p_get_latency in *.
  injection Hinit as I1 I2 I3 I4 I5 _ _ _ _.
  injection Hops as O1 O2 O3 O4 O5 _ _ _ _.
  repeat split; congruence.
Qed.

(** ** Well-formedness along the lifetime *)

Lemma wf_run_body input enable k self output self' output' :
  wf self →
  stft_p_run_body input enable k (self, output) = Some (self', output') →
  wf self'.
Proof.
  intros Hwf H.
  destruct (rd input k) as [x|] eqn:Hx;
    [|unfold stft_p_run_body in H; by rewrite Hx in H].
  assert (0 ≤ k < len output) as Hk.
  { unfold stft_p_run_body in H. rewrite Hx in H. steps.
    all: match goal with
         | Hw : wr _ _ _ = Some _ |- _ => by apply wr_Some in Hw as [? _]
         end. }
  rewrite (stft_p_run_body_spec _ _ _ _ _ x) in H by done.
  injection H as <- _. by apply wf_sample_result.
Qed.

Lemma wf_run self n input output enable self' output' :
  wf self →
  stft_p_run self n input output enable = Some (self', output') → wf self'.
Proof.
  intros Hwf H. unfold stft_p_run, for_lt in H.
  apply (for_loop_preserves (λ st, wf st.1) _ _ _ _ _) in H; [done| |done].
  intros j [s o] [s' o'] Hb Hs. cbn [fst] in *. by eapply wf_run_body.
Qed.

Lemma wf_perform self op self' :
  wf self → perform self op = Some self' → wf self'.
Proof.
  intros Hwf. destruct op as [n input output enable|]; cbn [perform]; intros H.
  - destruct (stft_p_run self n input output enable) as [[s o]|] eqn:E;
      [|done]. injection H as <-. by eapply wf_run.
  - rewrite stft_p_reset_spec in H by done. injection H as <-.
    by apply wf_reset_result.
Qed.

Lemma wf_perform_all self ops self' :
  wf self → perform_all self ops = Some self' → wf self'.
Proof.
  revert self. induction ops as [|op ops IH]; intros self Hwf H;
    cbn [perform_all] in H.
  - by injection H as <-.
  - destruct (perform self op) as [s|] eqn:E; [|done].
    eapply IH; [|exact H]. by eapply wf_perform.
Qed.

Lemma wf_init_with F B WI WO OV sr self :
  valid_configuration F B OV →
  stft_p_init_with F B WI WO OV sr = Some self → wf self.
Proof.
  intros Hv H. rewrite stft_p_init_with_spec in H by done.
  injection H as <-. by apply wf_init_result.
Qed.

(** One sample through [stft_p_run]. *)
Lemma stft_p_run_one self x o enable :
  wf self →
  stft_p_run self 1 [x] [o] enable
  = Some ((sample_result self x enable).1, [(sample_result self x enable).2]).
Proof.
  intros Hwf. rewrite stft_p_run_spec by (done || (unfold len; simpl; lia)).
  change (take (Z.to_nat 1) [x]) with [x].
  change (drop (Z.to_nat 1) [o]) with (@nil float).
  by rewrite samples_result_cons.
Qed.

(** ** The read position *)

Lemma read_position_cycle_result self enable :
  read_position (cycle_result self enable) = input_latency self.
Proof.
  unfold cycle_result, synthesis_result, processing_result, analysis_result,
    zeropad_result.
  fields. by destruct (_ <? _).
Qed.

Lemma read_position_sample_result self x enable :
  read_position (sample_result self x enable).1
  = if cycle_due self then input_latency self else read_position self + 1.
Proof.
  unfold sample_result. fields. destruct (cycle_due self); [|done].
  by rewrite read_position_cycle_result.
Qed.

(** C8: in every state reached from the initialization, [read_position]
    lies between the latency and the block size; a cycle is due for the next
    sample exactly when storing it makes [read_position] reach the block
    size, and after that sample [read_position] is back at the latency;
    otherwise it has advanced by one.  (It holds whether or not [reset] calls
    occur among the [run] calls.) *)
Theorem read_position_invariant F B WI WO OV sr self0 ops self :
  valid_configuration F B OV →
  stft_p_init_with F B WI WO OV sr = Some self0 →
  perform_all self0 ops = Some self →
  input_latency self ≤ read_position self ≤ block_size self
  ∧ (cycle_due self = true ↔ read_position self + 1 = block_size self)
  ∧ ∀ x o enable, ∃ self' y,
      stft_p_run self 1 [x] [o] enable = Some (self', [y])
      ∧ read_position self'
        = (if cycle_due self then input_latency self
           else read_position self + 1)
      ∧ self'
        = let stored :=
            set_read_position (read_position self + 1)
              (set_in_fifo
                 (<[Z.to_nat (read_position self) := x]> (in_fifo self)) self)
          in if cycle_due self then cycle_result stored enable else stored.
Proof.
  intros Hv Hinit Hops.
  assert (wf self) as Hwf
    by (eapply wf_perform_all; [by eapply wf_init_with|done]).
  pose proof Hwf as [].
  split; [lia|]. split.
  - unfold cycle_due.
    destruct (Z.leb_spec (block_size self) (read_position self + 1)); split;
      intros; (done || lia).
  - intros x o enable. eexists _, _. split; [by apply stft_p_run_one|].
    split; [apply read_position_sample_result|done].
Qed.

(** ** Invariants along the lifetime *)

Lemma stft_p_run_body_sample input enable k self output self' output' :
  wf self →
  stft_p_run_body input enable k (self, output) = Some (self', output') →
  ∃ x, self' = (sample_result self x enable).1.
Proof.
  intros Hwf H.
  destruct (rd input k) as [x|] eqn:Hx;
    [|unfold stft_p_run_body in H; by rewrite Hx in H].
  assert (0 ≤ k < len output) as Hk.
  { unfold stft_p_run_body in H. rewrite Hx in H. steps.
    all: match goal with
         | Hw : wr _ _ _ = Some _ |- _ => by apply wr_Some in Hw as [? _]
         end. }
  rewrite (stft_p_run_body_spec _ _ _ _ _ x) in H by done.
  injection H as <- _. by exists x.
Qed.

(** A property that every sample keeps is kept by [stft_p_run]. *)
Lemma stft_p_run_preserves (P : STFTprocessor → Prop) self n input output
    enable self' output' :
  (∀ self x enable, wf self → P self → P (sample_result self x enable).1) →
  wf self → P self →
  stft_p_run self n input output enable = Some (self', output') → P self'.
Proof.
  intros Hstep Hwf HP H. unfold stft_p_run, for_lt in H.
  apply (for_loop_preserves (λ st, wf st.1 ∧ P st.1) _ _ _ _ _) in H;
    [by destruct H| |done].
  intros j [s o] [s' o'] Hb [Hs HPs]. cbn [fst] in *.
  split; [by eapply wf_run_body|].
  destruct (stft_p_run_body_sample _ _ _ _ _ _ _ Hs Hb) as [x ->].
  by apply Hstep.
Qed.

(** A property that every sample and the reset keep holds along the whole
    lifetime. *)
Lemma perform_all_preserves (P : STFTprocessor → Prop) self ops self' :
  (∀ self x enable, wf self → P self → P (sample_result self x enable).1) →
  (∀ self, wf self → P self → P (reset_result self)) →
  wf self → P self → perform_all self ops = Some self' → P self'.
Proof.
  intros Hstep Hreset. revert self.
  induction ops as [|op ops IH]; intros self Hwf HP H; cbn [perform_all] in H.
  - by injection H as <-.
  - destruct (perform self op) as [s|] eqn:E; [|done].
    apply (IH s); [by eapply wf_perform| |done].
    destruct op as [n input output enable|]; cbn [perform] in E.
    + destruct (stft_p_run self n input output enable) as [[s1 o]|] eqn:E1;
        [|done]. injection E as <-. by eapply stft_p_run_preserves.
    + rewrite stft_p_reset_spec in E by done. injection E as <-.
      by apply Hreset.
Qed.

(** ** The output accumulator *)

Lemma output_accum_cycle_result self enable :
  len (output_window self) = fft_size self →
  ∃ frame,
    length frame = Z.to_nat (fft_size self)
    ∧ output_accum (cycle_result self enable)
      = let n := Z.to_nat (block_size self) in
        let accum := zip_with F32.add (take n (output_accum self))
                       (take n frame)
                     ++ drop n (output_accum self) in
        take n (drop (Z.to_nat (hop self)) accum) ++ drop n accum.
Proof.
  intros Hw.
  unfold cycle_result, synthesis_result, processing_result, analysis_result,
    zeropad_result.
  fields. destruct (_ <? _); fields; (eexists; split; [|reflexivity]);
    rewrite length_zip_with, length_tabulate; unfold len in *; lia.
Qed.

(** What a cycle does to the accumulator: the entries from [block_size] on
    stay as they are, and entry [j] of the shifted accumulator is the old
    entry [j + hop] whenever that one lies beyond the block. *)
Lemma output_accum_cycle_tail self enable :
  wf (set_read_position (input_latency self) self) →
  drop (Z.to_nat (block_size self)) (output_accum (cycle_result self enable))
  = drop (Z.to_nat (block_size self)) (output_accum self)
  ∧ ∀ j : nat,
      (Z.to_nat (block_size self) ≤ j + Z.to_nat (hop self))%nat →
      (j < Z.to_nat (block_size self))%nat →
      output_accum (cycle_result self enable) !! j
      = output_accum self !! (j + Z.to_nat (hop self))%nat.
Proof.
  intros Hwf. pose proof Hwf as []. fields. unfold len in *.
  destruct (output_accum_cycle_result self enable) as (frame & Hf & ->);
    [done|].
  cbv zeta.
  set (n := Z.to_nat (block_size self)) in *.
  set (h := Z.to_nat (hop self)) in *.
  set (sum := zip_with F32.add (take n (output_accum self)) (take n frame)).
  assert (length sum = n) as Hsum
    by (unfold sum; rewrite length_zip_with, !length_take; lia).
  assert (length (take n (drop h (sum ++ drop n (output_accum self)))) = n)
    as Hshift.
  { rewrite length_take, length_drop, length_app, length_drop. lia. }
  split.
  - rewrite drop_app_length' by done.
    by rewrite drop_app_length' by done.
  - intros j Hj1 Hj2.
    rewrite lookup_app_l by lia.
    rewrite lookup_take_lt by lia. rewrite lookup_drop.
    rewrite lookup_app_r by lia. rewrite lookup_drop.
    f_equal. lia.
Qed.

Lemma drop_zeros (n m : Z) :
  0 ≤ n ≤ m → drop (Z.to_nat n) (zeros m) = zeros (m - n).
Proof.
  intros H. unfold zeros. rewrite drop_replicate. f_equal. lia.
Qed.

Lemma configuration_sample_result self x enable :
  configuration (sample_result self x enable).1 = configuration self.
Proof.
  unfold sample_result, cycle_result, synthesis_result, processing_result,
    analysis_result, zeropad_result.
  fields. destruct (cycle_due self); [|done]. by destruct (_ <? _).
Qed.

Lemma block_size_sample_result self x enable :
  block_size (sample_result self x enable).1 = block_size self.
Proof.
  pose proof (configuration_sample_result self x enable) as Hc.
  unfold configuration in Hc. congruence.
Qed.

Lemma hop_sample_result self x enable :
  hop (sample_result self x enable).1 = hop self.
Proof.
  pose proof (configuration_sample_result self x enable) as Hc.
  unfold configuration in Hc. congruence.
Qed.

Lemma input_latency_sample_result self x enable :
  input_latency (sample_result self x enable).1 = input_latency self.
Proof.
  pose proof (configuration_sample_result self x enable) as Hc.
  unfold configuration in Hc. congruence.
Qed.

Lemma output_accum_tail_sample self x enable :
  wf self →
  drop (Z.to_nat (block_size self)) (output_accum self)
  = zeros (block_size self) →
  drop (Z.to_nat (block_size (sample_result self x enable).1))
    (output_accum (sample_result self x enable).1)
  = zeros (block_size (sample_result self x enable).1).
Proof.
  intros Hwf Htail.
  rewrite block_size_sample_result.
  unfold sample_result. fields. destruct (cycle_due self); [|done].
  destruct (output_accum_cycle_tail
              (set_read_position (read_position self + 1)
                 (set_in_fifo
                    (<[Z.to_nat (read_position self):=x]> (in_fifo self))
                    self)) enable) as [Hd _];
    [exact (wf_sample_stored self x Hwf)|].
  fields. by rewrite Hd.
Qed.

Lemma output_accum_tail_reset self :
  wf self →
  drop (Z.to_nat (block_size (reset_result self)))
    (output_accum (reset_result self))
  = zeros (block_size (reset_result self)).
Proof.
  intros []. pose proof (len_nonneg (in_fifo self)).
  unfold reset_result. fields. rewrite drop_zeros by lia. f_equal. lia.
Qed.

Lemma output_accum_init_result F B WI WO OV sr :
  output_accum (init_result F B WI WO OV sr) = zeros (B * 2).
Proof. reflexivity. Qed.

Lemma block_size_init_result F B WI WO OV sr :
  block_size (init_result F B WI WO OV sr) = B.
Proof. reflexivity. Qed.

Lemma output_accum_tail_init F B WI WO OV sr :
  valid_configuration F B OV →
  drop (Z.to_nat (block_size (init_result F B WI WO OV sr)))
    (output_accum (init_result F B WI WO OV sr))
  = zeros (block_size (init_result F B WI WO OV sr)).
Proof.
  intros (-> & HOV & Hhop).
  rewrite output_accum_init_result, block_size_init_result.
  rewrite drop_zeros by lia. f_equal. lia.
Qed.

(** C10: in every state reached from the initialization, the entries of the
    output accumulator at the indices from [block_size] to
    [2 * block_size - 1] are zero; and after a sample that triggers a cycle,
    the entries that the shift by [hop] has moved into the vacated region
    [block_size - hop .. block_size - 1] are zero.  (It holds whether or not
    [reset] calls occur among the [run] calls.) *)
Theorem accumulator_tail_zero F B WI WO OV sr self0 ops self :
  valid_configuration F B OV →
  stft_p_init_with F B WI WO OV sr = Some self0 →
  perform_all self0 ops = Some self →
  (∀ i, block_size self ≤ i < 2 * block_size self →
        rd (output_accum self) i = Some F32.zero)
  ∧ ∀ x o enable self' output',
      cycle_due self = true →
      stft_p_run self 1 [x] [o] enable = Some (self', output') →
      ∀ i, block_size self - hop self ≤ i < block_size self →
           rd (output_accum self') i = Some F32.zero.
Proof.
  intros Hv Hinit Hops.
  rewrite stft_p_init_with_spec in Hinit by done. injection Hinit as <-.
  pose proof (wf_init_result F B WI WO OV sr Hv) as Hwf0.
  assert (wf self) as Hwf by (by eapply wf_perform_all).
  assert (drop (Z.to_nat (block_size self)) (output_accum self)
          = zeros (block_size self)) as Htail.
  { apply (perform_all_preserves
             (λ s, drop (Z.to_nat (block_size s)) (output_accum s)
                   = zeros (block_size s))
             (init_result F B WI WO OV sr) ops); try done.
    - intros s x e Hs. by apply output_accum_tail_sample.
    - intros s Hs _. by apply output_accum_tail_reset.
    - by apply output_accum_tail_init. }
  assert (∀ j : nat, (Z.to_nat (block_size self) ≤ j)%nat →
            (j < 2 * Z.to_nat (block_size self))%nat →
            output_accum self !! j = Some F32.zero) as Hzero.
  { intros j Hj1 Hj2.
    replace j with (Z.to_nat (block_size self)
                    + (j - Z.to_nat (block_size self)))%nat by lia.
    rewrite <- lookup_drop, Htail. apply lookup_replicate_2. lia. }
  pose proof Hwf as [].
  split.
  - intros i Hi. unfold rd. destruct (Z.ltb_spec i 0); [lia|].
    apply Hzero; lia.
  - intros x o enable self' output' Hdue Hrun i Hi.
    rewrite stft_p_run_one in Hrun by done. injection Hrun as <- _.
    unfold sample_result. rewrite Hdue. fields.
    destruct (output_accum_cycle_tail
                (set_read_position (read_position self + 1)
                   (set_in_fifo
                      (<[Z.to_nat (read_position self):=x]> (in_fifo self))
                      self)) enable) as [_ Hs];
      [exact (wf_sample_stored self x Hwf)|].
    fields. unfold rd. destruct (Z.ltb_spec i 0); [lia|].
    rewrite Hs by lia. apply Hzero; lia.
Qed.

(** On a well-formed processor every call that stays inside the caller's
    arrays returns. *)
Lemma perform_all_total self ops :
  wf self → forallb in_bounds ops = true →
  ∃ self', perform_all self ops = Some self'.
Proof.
  revert self. induction ops as [|op ops IH]; intros self Hwf Hb.
  - by exists self.
  - cbn [forallb] in Hb. apply andb_prop in Hb as [Hop Hops].
    cbn [perform_all].
    assert (∃ s, perform self op = Some s) as [s Hs].
    { destruct op as [n input output enable|]; cbn [perform in_bounds] in *.
      - apply andb_prop in Hop as [Hi Ho].
        apply Z.leb_le in Hi, Ho.
        rewrite stft_p_run_spec by done. by eexists.
      - rewrite stft_p_reset_spec by done. by eexists. }
    rewrite Hs. apply IH; [by eapply wf_perform|done].
Qed.

(** ** The input queue and the output samples *)

Lemma in_fifo_cycle_result self enable :
  in_fifo (cycle_result self enable)
  = take (Z.to_nat (input_latency self))
      (drop (Z.to_nat (hop self)) (in_fifo self))
    ++ drop (Z.to_nat (input_latency self)) (in_fifo self).
Proof.
  unfold cycle_result, synthesis_result, processing_result, analysis_result,
    zeropad_result.
  fields. by destruct (_ <? _).
Qed.

Lemma length_pending self :
  wf self → length (pending self) = Z.to_nat (read_position self).
Proof.
  intros []. unfold pending, len in *. rewrite length_take. lia.
Qed.

(** One sample: it joins the queue at the back; a cycle then releases the
    [hop] oldest samples. *)
Lemma pending_sample_result self x enable :
  wf self →
  pending (sample_result self x enable).1
  = drop (if cycle_due self then Z.to_nat (hop self) else 0%nat)
      (pending self ++ [x]).
Proof.
  intros Hwf. pose proof Hwf as []. unfold len in *.
  assert (take (Z.to_nat (read_position self + 1))
            (<[Z.to_nat (read_position self):=x]> (in_fifo self))
          = pending self ++ [x]) as Hq.
  { replace (Z.to_nat (read_position self + 1))
      with (Datatypes.S (Z.to_nat (read_position self))) by lia.
    rewrite (take_S_r _ _ x) by (apply list_lookup_insert_eq; lia).
    by rewrite take_insert_ge by lia. }
  unfold pending at 1. rewrite read_position_sample_result.
  unfold sample_result, cycle_due in *. fields.
  destruct (Z.leb_spec (block_size self) (read_position self + 1)).
  - rewrite in_fifo_cycle_result. fields.
    rewrite take_app_length'
      by (rewrite length_take, length_drop, length_insert; lia).
    rewrite take_ge by (rewrite length_drop, length_insert; lia).
    rewrite <- Hq. f_equal.
    rewrite take_ge by (rewrite length_insert; lia). done.
  - fields. by rewrite Hq.
Qed.

Lemma pending_samples_result self xs enable :
  wf self →
  ∃ m : nat,
    (m ≤ length (pending self ++ xs))%nat
    ∧ pending (samples_result self xs enable).1
      = drop m (pending self ++ xs).
Proof.
  revert self. induction xs as [|x xs IH]; intros self Hwf.
  - exists 0%nat. split; [lia|]. by rewrite app_nil_r.
  - rewrite samples_result_cons. cbn [fst].
    pose proof (wf_sample_result self x enable Hwf) as Hwf1.
    destruct (IH _ Hwf1) as (m' & Hm' & ->).
    rewrite pending_sample_result in * by done.
    set (c := if cycle_due self then Z.to_nat (hop self) else 0%nat) in *.
    assert (c ≤ length (pending self ++ [x]))%nat as Hc.
    { rewrite length_app, length_pending by done. cbn [length].
      pose proof Hwf as []. unfold c, cycle_due.
      destruct (Z.leb_spec (block_size self) (read_position self + 1)); lia. }
    exists (c + m')%nat.
    rewrite <- drop_app_le in * by done.
    rewrite <- (assoc_L (++)) in *. cbn [app] in *.
    rewrite drop_drop. split; [|done].
    rewrite length_drop in Hm'. rewrite length_app in *. cbn [length] in *.
    lia.
Qed.

(** Output sample [k] of a signal is the entry of the output FIFO at the
    read position, in the state reached after [k] samples. *)
Lemma lookup_samples_result self xs enable (k : nat) x :
  xs !! k = Some x →
  (samples_result self xs enable).2 !! k
  = Some (nth_float (out_fifo (samples_result self (take k xs) enable).1)
            (read_position (samples_result self (take k xs) enable).1
             - input_latency (samples_result self (take k xs) enable).1)).
Proof.
  intros Hx.
  rewrite <- (take_drop_middle _ _ _ Hx) at 1.
  rewrite samples_result_app. cbn [snd].
  rewrite lookup_app_r by (rewrite length_samples_result, length_take; lia).
  rewrite length_samples_result, length_take.
  apply lookup_lt_Some in Hx as Hk.
  replace (k - k `min` length xs)%nat with 0%nat by lia.
  by rewrite samples_result_cons.
Qed.

(** C6: a call of [run] for no sample returns the processor and the output
    array as they are.  On a well-formed processor (every initialized one is,
    see [wf_init_with] and [wf_perform_all]) a call for [n_samples] samples
    returns; it writes exactly the first [n_samples] entries of the output
    array; entry [k] is what the output FIFO holds at the read position in
    the state reached after [k] samples; and the input queue afterwards is
    the old queue followed by the [n_samples] new samples in their order,
    less some of the oldest ones (those the cycles have released). *)
Theorem run_pushes_and_pops :
  (∀ self input output enable,
     stft_p_run self 0 input output enable = Some (self, output))
  ∧ ∀ self n input output enable,
      wf self → 0 ≤ n → n ≤ len input → n ≤ len output →
      ∃ self' output',
        stft_p_run self n input output enable = Some (self', output')
        ∧ len output' = len output
        ∧ (∀ k, n ≤ k → rd output' k = rd output k)
        ∧ (∀ k, 0 ≤ k < n →
             ∃ self_k output_k y,
               stft_p_run self k input output enable = Some (self_k, output_k)
               ∧ rd (out_fifo self_k)
                   (read_position self_k - input_latency self_k) = Some y
               ∧ rd output' k = Some y)
        ∧ ∃ m : nat,
            (m ≤ length (pending self ++ take (Z.to_nat n) input))%nat
            ∧ pending self'
              = drop m (pending self ++ take (Z.to_nat n) input).
Proof.
  split; [done|].
  intros self n input output enable Hwf Hn Hin Hout.
  eexists _, _. split; [by apply stft_p_run_spec|].
  set (xs := take (Z.to_nat n) input).
  assert (length xs = Z.to_nat n) as Hxs
    by (unfold xs, len in *; rewrite length_take; lia).
  pose proof (length_samples_result self xs enable) as Hys.
  unfold len in *.
  split; [|split; [|split]].
  - rewrite length_app, length_drop. lia.
  - intros k Hk. unfold rd. destruct (Z.ltb_spec k 0); [done|].
    rewrite lookup_app_r by lia. rewrite lookup_drop. f_equal. lia.
  - intros k Hk.
    destruct (lookup_lt_is_Some_2 xs (Z.to_nat k)) as [x Hx]; [lia|].
    pose proof (lookup_samples_result self xs enable _ _ Hx) as Hy.
    assert (take (Z.to_nat k) xs = take (Z.to_nat k) input) as Htake.
    { unfold xs. rewrite take_take. f_equal. lia. }
    rewrite Htake in Hy.
    pose proof (wf_samples_result self (take (Z.to_nat k) input) enable Hwf)
      as Hwfk.
    eexists _, _, _. split; [apply stft_p_run_spec; (done || unfold len; lia)|].
    split.
    + apply rd_nth_float. destruct Hwfk. lia.
    + unfold rd. destruct (Z.ltb_spec k 0); [lia|].
      rewrite lookup_app_l by lia. exact Hy.
  - by apply pending_samples_result.
Qed.

(** ** Call boundaries *)

(** A whole signal in one call, into an output array of its length. *)
Lemma stft_p_run_signal self xs enable :
  wf self →
  stft_p_run self (len xs) xs (zeros (len xs)) enable
  = Some (samples_result self xs enable).
Proof.
  intros Hwf. unfold len.
  rewrite stft_p_run_spec
    by (done || (unfold len; rewrite ?length_zeros; lia)).
  rewrite Nat2Z.id, take_ge by lia.
  rewrite drop_ge by (rewrite length_zeros; lia).
  rewrite app_nil_r. by destruct (samples_result self xs enable).
Qed.

Lemma stft_p_run_blocks_spec self blocks enable :
  wf self →
  stft_p_run_blocks self blocks enable
  = Some (samples_result self (concat blocks) enable).
Proof.
  revert self. induction blocks as [|b blocks IH]; intros self Hwf; [done|].
  cbn [stft_p_run_blocks concat].
  rewrite stft_p_run_signal by done.
  pose proof (wf_samples_result self b enable Hwf) as Hwf1.
  rewrite samples_result_app.
  destruct (samples_result self b enable) as [s1 ys]. cbn [fst snd] in *.
  rewrite IH by done.
  by destruct (samples_result s1 (concat blocks) enable).
Qed.

(** C7: for every signal and every way of cutting it into consecutive
    blocks, feeding the blocks in successive calls of [run] gives the same
    processor and, concatenated, the same output samples as feeding the whole
    signal in one call. *)
Theorem run_blocks_independent self blocks enable :
  wf self →
  stft_p_run_blocks self blocks enable
  = stft_p_run self (len (concat blocks)) (concat blocks)
      (zeros (len (concat blocks))) enable.
Proof.
  intros Hwf. by rewrite stft_p_run_blocks_spec, stft_p_run_signal.
Qed.

(** ** The enable flag *)

Lemma bookkeeping_sample_result self1 self2 x enable1 enable2 :
  bookkeeping self1 = bookkeeping self2 →
  cycle_due self1 = cycle_due self2
  ∧ bookkeeping (sample_result self1 x enable1).1
    = bookkeeping (sample_result self2 x enable2).1.
Proof.
  unfold bookkeeping. intros [= Hrp Hfifo Hbs Hhop Hlat].
  assert (cycle_due self1 = cycle_due self2) as Hdue
    by (unfold cycle_due; by rewrite Hrp, Hbs).
  split; [done|].
  rewrite !block_size_sample_result, !hop_sample_result,
    !input_latency_sample_result.
  rewrite !read_position_sample_result, Hdue, Hrp, Hbs, Hhop, Hlat.
  do 4 f_equal.
  unfold sample_result. rewrite Hdue. fields.
  destruct (cycle_due self2); fields; [|by rewrite Hrp, Hfifo].
  rewrite !in_fifo_cycle_result. fields. by rewrite Hrp, Hfifo, Hhop, Hlat.
Qed.

Lemma bookkeeping_samples_result self1 self2 xs enable1 enable2 :
  bookkeeping self1 = bookkeeping self2 →
  bookkeeping (samples_result self1 xs enable1).1
  = bookkeeping (samples_result self2 xs enable2).1.
Proof.
  revert self1 self2. induction xs as [|x xs IH]; intros self1 self2 Hb;
    [done|].
  rewrite !samples_result_cons. cbn [fst]. apply IH.
  by apply bookkeeping_sample_result.
Qed.

Lemma cycle_trace_enable self1 self2 xs enable1 enable2 :
  wf self1 → wf self2 → bookkeeping self1 = bookkeeping self2 →
  ∃ trace,
    cycle_trace self1 xs enable1 = Some trace
    ∧ cycle_trace self2 xs enable2 = Some trace.
Proof.
  revert self1 self2.
  induction xs as [|x xs IH]; intros self1 self2 Hwf1 Hwf2 Hb.
  - by exists [].
  - cbn [cycle_trace]. rewrite !stft_p_run_one by done.
    destruct (bookkeeping_sample_result self1 self2 x enable1 enable2 Hb)
      as [Hdue Hb'].
    destruct (IH _ _ (wf_sample_result self1 x enable1 Hwf1)
                (wf_sample_result self2 x enable2 Hwf2) Hb')
      as (trace & -> & ->).
    exists (cycle_due self1 :: trace). by rewrite Hdue.
Qed.

Lemma take_succ_nth_float (input : list float) (k : Z) :
  0 ≤ k < len input →
  take (Z.to_nat (k + 1)) input
  = take (Z.to_nat k) input ++ [nth_float input k].
Proof.
  intros Hk. unfold len in Hk.
  destruct (lookup_lt_is_Some_2 input (Z.to_nat k)) as [x Hx]; [lia|].
  replace (Z.to_nat (k + 1)) with (S (Z.to_nat k)) by lia.
  rewrite (take_S_r _ _ _ Hx). do 2 f_equal.
  unfold nth_float, rd. destruct (Z.ltb_spec k 0); [lia|]. by rewrite Hx.
Qed.

(** A cycle of [stft_p_run], step by step: the analysis of the copied frame,
    the stage called on its spectrum with the flag of the caller, and the
    synthesis of what the stage returns. *)
Lemma sample_result_cycle self x enable :
  wf self → cycle_due self = true →
  stft_p_analysis (frame_copied self x)
  = Some (analysis_result (frame_copied self x))
  ∧ stft_p_synthesis
      (processing_result (analysis_result (frame_copied self x)) enable)
    = Some (sample_result self x enable).1.
Proof.
  intros Hwf Hdue.
  assert (wf (frame_copied self x)) as Hfc
    by exact (wf_frame_copied self x Hwf).
  split; [by apply stft_p_analysis_spec|].
  rewrite stft_p_synthesis_spec
    by (by apply wf_processing_result, wf_analysis_result).
  unfold sample_result. rewrite Hdue. reflexivity.
Qed.

Lemma sample_result_no_cycle self x enable :
  cycle_due self = false →
  fft_processor (sample_result self x enable).1 = fft_processor self.
Proof. intros Hdue. unfold sample_result. by rewrite Hdue. Qed.

(** If the stage does not tell two flags apart, neither does the
    processor. *)
Lemma processing_result_stage_blind self enable1 enable2 :
  (∀ p spectrum,
     fft_p_run_state p spectrum enable1 = fft_p_run_state p spectrum enable2
     ∧ ∀ k, fft_p_run_spectrum p spectrum enable1 k
            = fft_p_run_spectrum p spectrum enable2 k) →
  processing_result self enable1 = processing_result self enable2.
Proof.
  intros Hblind. unfold processing_result.
  destruct (Hblind (fft_processor self) (output_fft_buffer self)) as [-> Hk].
  by rewrite (tabulate_ext _ _ _ (λ k _, Hk k)).
Qed.

Lemma sample_result_stage_blind self x enable1 enable2 :
  (∀ p spectrum,
     fft_p_run_state p spectrum enable1 = fft_p_run_state p spectrum enable2
     ∧ ∀ k, fft_p_run_spectrum p spectrum enable1 k
            = fft_p_run_spectrum p spectrum enable2 k) →
  sample_result self x enable1 = sample_result self x enable2.
Proof.
  intros Hblind. unfold sample_result.
  destruct (cycle_due self); [|done]. f_equal.
  unfold cycle_result. cbv zeta. f_equal.
  by apply processing_result_stage_blind.
Qed.

Lemma samples_result_stage_blind self xs enable1 enable2 :
  (∀ p spectrum,
     fft_p_run_state p spectrum enable1 = fft_p_run_state p spectrum enable2
     ∧ ∀ k, fft_p_run_spectrum p spectrum enable1 k
            = fft_p_run_spectrum p spectrum enable2 k) →
  samples_result self xs enable1 = samples_result self xs enable2.
Proof.
  intros Hblind. revert self. induction xs as [|x xs IH]; intros self; [done|].
  rewrite !samples_result_cons.
  by rewrite (sample_result_stage_blind self x enable1 enable2 Hblind), IH.
Qed.

(** C9: the enable flag reaches the spectral stage as it is, and nowhere
    else.  Two executions of [run] on the same input, from processors with
    the same FIFO bookkeeping (in particular from the same processor), with
    any two values of the flag: both return, with the same read position,
    the same input FIFO, the same block size, hop and latency, and, fed
    sample by sample, with cycles at the same samples.  At every sample
    [k] of an execution at which a cycle is due, the processor after the
    sample is the synthesis of what the stage, called with the flag of this
    execution on the spectrum the analysis of the copied frame has left,
    returns as its new state and as the new spectrum; at every other sample
    the stage is not called.  And if the stage does not tell the two flags
    apart, the two executions from the same processor are the same. *)
Theorem enable_only_reaches_stage self1 self2 n input output1 output2
    enable1 enable2 :
  wf self1 → wf self2 → bookkeeping self1 = bookkeeping self2 →
  n ≤ len input → n ≤ len output1 → n ≤ len output2 →
  stft_p_processing self1 enable1
  = Some (set_fft_processor
            (fft_p_run_state (fft_processor self1) (output_fft_buffer self1)
               enable1)
            (set_output_fft_buffer
               (tabulate (fft_size self1)
                  (fft_p_run_spectrum (fft_processor self1)
                     (output_fft_buffer self1) enable1)) self1))
  ∧ (∃ self1' output1' self2' output2' trace,
      stft_p_run self1 n input output1 enable1 = Some (self1', output1')
      ∧ stft_p_run self2 n input output2 enable2 = Some (self2', output2')
      ∧ bookkeeping self1' = bookkeeping self2'
      ∧ stft_p_get_latency self1' = stft_p_get_latency self2'
      ∧ stft_p_get_latency self1' = stft_p_get_latency self1
      ∧ cycle_trace self1 (take (Z.to_nat n) input) enable1 = Some trace
      ∧ cycle_trace self2 (take (Z.to_nat n) input) enable2 = Some trace)
  ∧ (∀ k, 0 ≤ k < n →
       ∃ s o s' o',
         stft_p_run self1 k input output1 enable1 = Some (s, o)
         ∧ stft_p_run self1 (k + 1) input output1 enable1 = Some (s', o')
         ∧ if cycle_due s
           then ∃ analysed,
             stft_p_analysis (frame_copied s (nth_float input k))
             = Some analysed
             ∧ stft_p_synthesis
                 (set_fft_processor
                    (fft_p_run_state (fft_processor analysed)
                       (output_fft_buffer analysed) enable1)
                    (set_output_fft_buffer
                       (tabulate (fft_size analysed)
                          (fft_p_run_spectrum (fft_processor analysed)
                             (output_fft_buffer analysed) enable1))
                       analysed))
               = Some s'
           else fft_processor s' = fft_processor s)
  ∧ ((∀ p spectrum,
        fft_p_run_state p spectrum enable1
        = fft_p_run_state p spectrum enable2
        ∧ ∀ k, fft_p_run_spectrum p spectrum enable1 k
               = fft_p_run_spectrum p spectrum enable2 k) →
     stft_p_run self1 n input output1 enable1
     = stft_p_run self1 n input output1 enable2).
Proof.
  intros Hwf1 Hwf2 Hb Hin Ho1 Ho2.
  split; [by apply stft_p_processing_spec|].
  split; [|split].
  - destruct (cycle_trace_enable self1 self2 (take (Z.to_nat n) input)
                enable1 enable2 Hwf1 Hwf2 Hb) as (trace & Ht1 & Ht2).
    pose proof (bookkeeping_samples_result self1 self2
                  (take (Z.to_nat n) input) enable1 enable2 Hb) as Hb'.
    eexists _, _, _, _, trace.
    split; [by apply stft_p_run_spec|].
    split; [by apply stft_p_run_spec|].
    split; [done|].
    split; [unfold bookkeeping, stft_p_get_latency in *; congruence|].
    split; [|done].
    pose proof (configuration_run self1 n input output1 enable1 _ _
                  (stft_p_run_spec self1 n input output1 enable1 Hwf1 Hin
                     Ho1))
      as Hc.
    unfold configuration, stft_p_get_latency in *. congruence.
  - intros k Hk. eexists _, _, _, _.
    split; [apply stft_p_run_spec; (done || lia)|].
    split; [apply stft_p_run_spec; (done || lia)|].
    rewrite take_succ_nth_float by lia.
    rewrite samples_result_app, samples_result_cons. cbn [fst].
    set (s := (samples_result self1 (take (Z.to_nat k) input) enable1).1).
    assert (wf s) as Hs by (by apply wf_samples_result).
    clearbody s.
    destruct (cycle_due s) eqn:Hdue.
    + destruct (sample_result_cycle s (nth_float input k) enable1 Hs Hdue)
        as [Ha Hsyn].
      eexists. split; [exact Ha|exact Hsyn].
    + by apply sample_result_no_cycle.
  - intros Hblind.
    rewrite !stft_p_run_spec by done.
    by rewrite (samples_result_stage_blind self1 _ enable1 enable2 Hblind).
Qed.

(** ** Window setup and reset on any allocated processor *)

Lemma allocated_wf self : wf self → allocated self.
Proof. intros []. by split. Qed.

Lemma stft_p_reset_allocated self :
  allocated self → stft_p_reset self = Some (reset_result self).
Proof.
  intros [].
  unfold stft_p_reset.
  rewrite initialize_array_spec by done. simpl.
  rewrite initialize_array_spec by done. simpl.
  rewrite initialize_array_spec by done. simpl.
  rewrite initialize_array_spec by done. simpl.
  rewrite initialize_array_spec by done. simpl.
  rewrite initialize_array_spec by done. simpl.
  rewrite initialize_array_spec by done. done.
Qed.

Lemma stft_p_pre_and_post_window_allocated self :
  allocated self →
  stft_p_pre_and_post_window self = Some (pre_and_post_window_result self).
Proof.
  intros Hal. pose proof Hal as [].
  pose proof (len_nonneg (in_fifo self)).
  unfold stft_p_pre_and_post_window.
  rewrite (window_switch _
    (fft_window (input_window self) (block_size self))).
  assert ((if window_known (window_option_input self)
           then fft_window (input_window self) (block_size self)
                  (window_option_input self)
           else Some (input_window self))
          = Some (window_after (input_window self) (window_option_input self)
                    (block_size self))) as ->.
  { unfold window_after. destruct (window_known _); [|done].
    apply fft_window_spec. lia. }
  simpl.
  rewrite (window_switch _
    (fft_window (output_window self) (block_size self))).
  assert ((if window_known (window_option_output self)
           then fft_window (output_window self) (block_size self)
                  (window_option_output self)
           else Some (output_window self))
          = Some (window_after (output_window self) (window_option_output self)
                    (block_size self))) as ->.
  { unfold window_after. destruct (window_known _); [|done].
    apply fft_window_spec. lia. }
  simpl. unfold for_lt. rewrite Z.sub_0_r.
  rewrite loop_inner_product; [done| |].
  - rewrite length_window_after by lia. unfold len in *. lia.
  - rewrite length_window_after by lia. unfold len in *. lia.
Qed.

(** C3 (as the code has it): after the window setup the reconstruction scale
    factor is the inner product of the first [block_size] coefficients of
    the two windows, summed in single precision from the front, divided by
    [block_size]; where the block is the whole transform, as in every
    processor the initialization makes, this is the inner product of the two
    windows divided by the transform size. *)
Theorem scale_factor_is_inner_product self :
  allocated self →
  ∃ self',
    stft_p_pre_and_post_window self = Some self'
    ∧ overlap_scale_factor self'
      = F32.div
          (inner_product
             (take (Z.to_nat (block_size self')) (input_window self'))
             (take (Z.to_nat (block_size self')) (output_window self')))
          (F32.of_int (block_size self'))
    ∧ (block_size self = fft_size self →
       overlap_scale_factor self'
       = F32.div (inner_product (input_window self') (output_window self'))
           (F32.of_int (fft_size self'))).
Proof.
  intros Hal. eexists. split; [by apply stft_p_pre_and_post_window_allocated|].
  pose proof Hal as []. pose proof (len_nonneg (in_fifo self)).
  unfold pre_and_post_window_result. fields. split; [done|].
  intros Heq. rewrite <- Heq.
  rewrite !take_ge; [done| |]; rewrite length_window_after by lia;
    unfold len in *; lia.
Qed.

(** ** The windows *)

Lemma windows_sample_result self x enable :
  input_window (sample_result self x enable).1 = input_window self
  ∧ output_window (sample_result self x enable).1 = output_window self.
Proof.
  unfold sample_result, cycle_result, synthesis_result, processing_result,
    analysis_result, zeropad_result.
  fields. destruct (cycle_due self); [|done]. by destruct (_ <? _).
Qed.

Lemma windows_generated_sample_result self x enable :
  windows_generated self → windows_generated (sample_result self x enable).1.
Proof.
  unfold windows_generated.
  destruct (windows_sample_result self x enable) as [-> ->].
  pose proof (configuration_sample_result self x enable) as Hc.
  unfold configuration in Hc.
  assert (fft_size (sample_result self x enable).1 = fft_size self) as ->
    by congruence.
  assert (window_option_input (sample_result self x enable).1
          = window_option_input self) as -> by congruence.
  assert (window_option_output (sample_result self x enable).1
          = window_option_output self) as -> by congruence.
  done.
Qed.

(** A property that every sample keeps holds after any sequence of [run]
    calls. *)
Lemma perform_all_runs_preserves (P : STFTprocessor → Prop) self ops self' :
  (∀ self x enable, wf self → P self → P (sample_result self x enable).1) →
  forallb is_run ops = true →
  wf self → P self → perform_all self ops = Some self' → P self'.
Proof.
  intros Hstep. revert self.
  induction ops as [|op ops IH]; intros self Hruns Hwf HP H;
    cbn [perform_all forallb] in *.
  - by injection H as <-.
  - apply andb_prop in Hruns as [Hop Hruns].
    destruct (perform self op) as [s|] eqn:E; [|done].
    apply (IH s); [done|by eapply wf_perform| |done].
    destruct op as [n input output enable|]; [|done]. cbn [perform] in E.
    destruct (stft_p_run self n input output enable) as [[s1 o]|] eqn:E1;
      [|done]. injection E as <-. by eapply stft_p_run_preserves.
Qed.

Lemma window_after_full t N :
  0 ≤ N → window_after (zeros N) t N = window_of t N.
Proof.
  intros HN. unfold window_after, window_of.
  destruct (window_known t); [|done].
  apply splice_all. by rewrite length_tabulate, length_zeros.
Qed.

Lemma windows_init_result F B WI WO OV sr :
  input_window (init_result F B WI WO OV sr) = window_after (zeros F) WI B
  ∧ output_window (init_result F B WI WO OV sr) = window_after (zeros F) WO B
  ∧ fft_size (init_result F B WI WO OV sr) = F
  ∧ window_option_input (init_result F B WI WO OV sr) = WI
  ∧ window_option_output (init_result F B WI WO OV sr) = WO.
Proof. done. Qed.

Lemma windows_generated_init_result F B WI WO OV sr :
  valid_configuration F B OV →
  windows_generated (init_result F B WI WO OV sr).
Proof.
  intros (-> & HOV & Hhop). unfold windows_generated.
  destruct (windows_init_result F F WI WO OV sr)
    as (-> & -> & -> & -> & ->).
  by rewrite !window_after_full by lia.
Qed.

(** *** What no call of [run] changes: the windows and the array lengths *)

Lemma memcpy_length (dst src : list float) n r :
  memcpy dst src n = Some r → length r = length dst.
Proof.
  unfold memcpy. intros H.
  destruct (_ && _) eqn:E; [|done]. injection H as <-.
  apply andb_prop in E as [[H0%Z.leb_le Hd%Z.leb_le]%andb_prop Hs%Z.leb_le].
  rewrite length_app, length_take, length_drop. lia.
Qed.

Lemma memmove_length (b : list float) d s n r :
  memmove b d s n = Some r → length r = length b.
Proof.
  unfold memmove. intros H.
  destruct (_ && _) eqn:E; [|done]. injection H as <-.
  apply andb_prop in E as [E Hs%Z.leb_le].
  apply andb_prop in E as [E Hd%Z.leb_le].
  apply andb_prop in E as [E Hs0%Z.leb_le].
  apply andb_prop in E as [Hn%Z.leb_le Hd0%Z.leb_le].
  rewrite !length_app, !length_take, !length_drop. lia.
Qed.

Lemma fft_p_run_length p n (spectrum : list float) enable p' spectrum' :
  fft_p_run p n spectrum enable = Some (p', spectrum') →
  length spectrum' = length spectrum.
Proof.
  unfold fft_p_run. intros H.
  destruct (_ && _) eqn:E; [|done]. injection H as _ <-.
  apply andb_prop in E as [H0%Z.leb_le Hn%Z.leb_le].
  rewrite length_app, length_tabulate, length_drop. lia.
Qed.

Lemma shape_fftwf_execute plan self self' :
  fftwf_execute plan self = Some self' → shape self' = shape self.
Proof.
  unfold fftwf_execute. intros H.
  destruct (_ && _) eqn:E; [|done].
  apply andb_prop in E as [[H0%Z.leb_le Hi%Z.leb_le]%andb_prop Ho%Z.leb_le].
  destruct (plan_kind plan); injection H as <-; unfold shape; fields;
    rewrite !length_app, !length_tabulate, !length_drop;
    repeat (f_equal; try lia).
Qed.

(** The length of the array a loop of stores leaves. *)
Ltac loop_length H :=
  unfold for_lt, for_le in H;
  apply for_loop_wr_length in H;
  [|let Hb := fresh "Hb" in
    intros ? ? ? Hb; steps; by eapply wr_length].

Lemma shape_analysis self self' :
  stft_p_analysis self = Some self' → shape self' = shape self.
Proof.
  unfold stft_p_analysis, stft_p_zeropad. intros H. steps.
  - match goal with
    | Hz : for_le _ _ _ _ = Some _, Hw : for_lt _ _ _ _ = Some _ |- _ =>
        loop_length Hz; loop_length Hw;
        rewrite (shape_fftwf_execute _ _ _ H); unfold shape; fields;
        by rewrite Hw, Hz
    end.
  - match goal with
    | Hw : for_lt _ _ _ _ = Some _ |- _ =>
        loop_length Hw;
        rewrite (shape_fftwf_execute _ _ _ H); unfold shape; fields;
        by rewrite Hw
    end.
Qed.

Lemma shape_processing self self' enable :
  stft_p_processing self enable = Some self' → shape self' = shape self.
Proof.
  unfold stft_p_processing. intros H.
  destruct (fft_p_run _ _ _ _) as [[p spectrum]|] eqn:E; [|done].
  injection H as <-. unfold shape. fields.
  by rewrite (fft_p_run_length _ _ _ _ _ _ E).
Qed.

Lemma shape_synthesis self self' :
  stft_p_synthesis self = Some self' → shape self' = shape self.
Proof.
  unfold stft_p_synthesis. intros H. steps.
  match goal with
  | Hx : fftwf_execute _ _ = Some _,
    H1 : for_lt _ _ _ (input_fft_buffer _) = Some ?b1,
    H2 : for_lt _ _ _ ?b1 = Some _,
    H3 : for_lt _ _ _ (output_accum _) = Some ?acc,
    H4 : for_lt _ _ _ (out_fifo _) = Some _,
    H5 : memmove ?acc _ _ _ = Some _,
    H6 : for_lt _ _ _ (in_fifo _) = Some _ |- _ =>
      loop_length H1; loop_length H2; loop_length H3; loop_length H4;
      loop_length H6; apply memmove_length in H5;
      rewrite <- (shape_fftwf_execute _ _ _ Hx); unfold shape; fields;
      by rewrite H6, H5, H4, H3, H2, H1
  end.
Qed.

Lemma shape_run_body input enable k self output self' output' :
  stft_p_run_body input enable k (self, output) = Some (self', output') →
  shape self' = shape self.
Proof.
  unfold stft_p_run_body. intros H. steps.
  - injection H as <- <-.
    match goal with
    | Hw : wr (in_fifo self) _ _ = Some _, Hm : memcpy _ _ _ = Some _,
      Ha : stft_p_analysis _ = Some _, Hp : stft_p_processing _ _ = Some _,
      Hs : stft_p_synthesis _ = Some _ |- _ =>
        rewrite (shape_synthesis _ _ Hs), (shape_processing _ _ _ Hp),
          (shape_analysis _ _ Ha);
        apply wr_length in Hw; apply memcpy_length in Hm;
        unfold shape; fields; fields; by rewrite Hm, Hw
    end.
  - injection H as <- <-.
    match goal with
    | Hw : wr (in_fifo self) _ _ = Some _ |- _ =>
        apply wr_length in Hw; unfold shape; fields; by rewrite Hw
    end.
Qed.

Lemma shape_run self n input output enable self' output' :
  stft_p_run self n input output enable = Some (self', output') →
  shape self' = shape self.
Proof.
  unfold stft_p_run, for_lt. intros H.
  apply (for_loop_preserves (λ st, shape st.1 = shape self) _ _ _ _ _) in H;
    [done| |done].
  intros j [s o] [s' o'] Hb Hs. cbn [fst] in *.
  by rewrite (shape_run_body _ _ _ _ _ _ _ Hb).
Qed.

Lemma shape_perform_all_runs self ops self' :
  forallb is_run ops = true → perform_all self ops = Some self' →
  shape self' = shape self.
Proof.
  revert self. induction ops as [|op ops IH]; intros self Hruns H;
    cbn [perform_all forallb] in *.
  - by injection H as <-.
  - apply andb_prop in Hruns as [Hop Hruns].
    destruct (perform self op) as [s|] eqn:E; [|done].
    rewrite (IH s Hruns H).
    destruct op as [n input output enable|]; [|done]. cbn [perform] in E.
    destruct (stft_p_run self n input output enable) as [[s1 o]|] eqn:E1;
      [|done]. injection E as <-. by eapply shape_run.
Qed.

(** *** The arrays stay as long as they were allocated *)

Lemma allocated_shape self self' :
  allocated self → shape self' = shape self →
  configuration self' = configuration self → allocated self'.
Proof.
  intros [] Hs Hc. unfold shape, configuration, len in *.
  injection Hs as Hiw How Hif Hof Hacc Hib Hob.
  assert (fft_size self' = fft_size self) as Hfft by congruence.
  assert (block_size self' = block_size self) as Hblock by congruence.
  split; unfold len; rewrite ?Hiw, ?How, ?Hif, ?Hof, ?Hacc, ?Hib, ?Hob,
    ?Hfft, ?Hblock; done.
Qed.

Lemma allocated_reset_result self : allocated self → allocated (reset_result self).
Proof.
  intros []. pose proof (len_nonneg (input_window self)).
  pose proof (len_nonneg (in_fifo self)).
  split; unfold reset_result; fields; try done; apply len_zeros; lia.
Qed.

Lemma allocated_perform_all self ops self' :
  allocated self → perform_all self ops = Some self' → allocated self'.
Proof.
  revert self. induction ops as [|op ops IH]; intros self Hal H;
    cbn [perform_all] in H.
  - by injection H as <-.
  - destruct (perform self op) as [s|] eqn:E; [|done].
    apply (IH s); [|done].
    destruct op as [n input output enable|]; cbn [perform] in E.
    + destruct (stft_p_run self n input output enable) as [[s1 o]|] eqn:E1;
        [|done]. injection E as <-.
      apply (allocated_shape self); [done|by eapply shape_run|].
      by eapply configuration_run.
    + rewrite stft_p_reset_allocated in E by done. injection E as <-.
      by apply allocated_reset_result.
Qed.

Lemma allocated_init_allocated F B WI WO OV sr :
  0 ≤ B ≤ F → allocated (init_allocated F B WI WO OV sr).
Proof.
  intros HB. split; simpl; try (apply len_tabulate; lia); lia.
Qed.

Lemma allocated_pre_and_post_window_result self :
  allocated self → allocated (pre_and_post_window_result self).
Proof.
  intros []. pose proof (len_nonneg (in_fifo self)).
  split; simpl; try done; unfold len;
    rewrite length_window_after by lia; done.
Qed.

Lemma allocated_set_fft_processor p self :
  allocated self → allocated (set_fft_processor p self).
Proof. intros []. by split. Qed.

Lemma allocated_init_result F B WI WO OV sr :
  0 ≤ B ≤ F → allocated (init_result F B WI WO OV sr).
Proof.
  intros HB. apply allocated_set_fft_processor,
    allocated_pre_and_post_window_result, allocated_reset_result,
    allocated_init_allocated, HB.
Qed.

(** The initialization returns whenever the block fits the transform and
    the overlap factor is not zero. *)
Lemma stft_p_init_with_allocated F B WI WO OV sr :
  0 ≤ B ≤ F → OV ≠ 0 →
  stft_p_init_with F B WI WO OV sr = Some (init_result F B WI WO OV sr).
Proof.
  intros HB HOV.
  pose proof (allocated_init_allocated F B WI WO OV sr HB) as Hal.
  unfold stft_p_init_with.
  destruct (Z.eqb_spec OV 0) as [|_]; [done|]. simpl.
  change (stft_p_reset _) with
    (stft_p_reset (init_allocated F B WI WO OV sr)).
  rewrite stft_p_reset_allocated by done. simpl.
  rewrite stft_p_pre_and_post_window_allocated
    by (by apply allocated_reset_result).
  done.
Qed.

(** A window written into zeros: the window of its type for the length of
    the block, followed by zeros. *)
Lemma window_after_zeros t F B :
  0 ≤ B ≤ F → window_after (zeros F) t B = window_of t B ++ zeros (F - B).
Proof.
  intros HB. unfold window_after, window_of.
  destruct (window_known t).
  - unfold splice. rewrite take_0. cbn [app].
    rewrite Nat.add_0_l, length_tabulate. f_equal. by apply drop_zeros.
  - unfold zeros. rewrite <- replicate_add. f_equal. lia.
Qed.

(** C4 (as the code has it): the initialization returns for every block
    that fits the transform and every overlap factor but zero, and leaves
    two windows of length [fft_size]: the coefficient sequence that the
    window type and the length [block_size] alone determine, followed by
    zeros up to [fft_size].  Where the block is the whole transform, as in
    every processor the hardcoded values make, both windows are the
    coefficient sequences of length [fft_size] that their type and that
    length alone determine.  Every sequence of [run] calls leaves both
    windows as they are ([stft_p_get_latency] changes nothing).  [reset]
    does not: it overwrites both windows with [fft_size] zeros, whatever
    their types, and leaves their lengths as they are. *)
Theorem windows_generated_until_reset F B WI WO OV sr :
  0 ≤ B ≤ F → OV ≠ 0 →
  ∃ self0,
    stft_p_init_with F B WI WO OV sr = Some self0
    ∧ fft_size self0 = F
    ∧ input_window self0 = window_of WI B ++ zeros (F - B)
    ∧ output_window self0 = window_of WO B ++ zeros (F - B)
    ∧ len (input_window self0) = fft_size self0
    ∧ len (output_window self0) = fft_size self0
    ∧ (B = F → windows_generated self0)
    ∧ (∀ ops self,
         forallb is_run ops = true → perform_all self0 ops = Some self →
         input_window self = input_window self0
         ∧ output_window self = output_window self0
         ∧ (B = F → windows_generated self))
    ∧ (∀ ops self,
         perform_all self0 ops = Some self →
         ∃ self',
           stft_p_reset self = Some self'
           ∧ input_window self' = zeros (fft_size self)
           ∧ output_window self' = zeros (fft_size self)
           ∧ fft_size self' = fft_size self).
Proof.
  intros HB HOV.
  pose proof (stft_p_init_with_allocated F B WI WO OV sr HB HOV) as Hinit.
  pose proof (allocated_init_result F B WI WO OV sr HB) as Hal.
  destruct (windows_init_result F B WI WO OV sr)
    as (Hwi & Hwo & Hfft & Hti & Hto).
  rewrite (window_after_zeros WI _ _ HB) in Hwi.
  rewrite (window_after_zeros WO _ _ HB) in Hwo.
  generalize dependent (init_result F B WI WO OV sr).
  intros self0 Hinit Hal Hwi Hwo Hfft Hti Hto.
  exists self0.
  assert (B = F → windows_generated self0) as Hgen.
  { intros ->. unfold windows_generated.
    rewrite Hwi, Hwo, Hfft, Hti, Hto, Z.sub_diag.
    change (zeros 0) with (@nil float). by rewrite !app_nil_r. }
  split; [exact Hinit|]. split; [exact Hfft|].
  split; [exact Hwi|]. split; [exact Hwo|].
  split; [exact (al_input_window _ Hal)|].
  split; [exact (al_output_window _ Hal)|].
  split; [exact Hgen|]. split.
  - intros ops self Hruns Hops.
    pose proof (shape_perform_all_runs _ _ _ Hruns Hops) as Hs.
    pose proof (configuration_perform_all _ _ _ Hops) as Hc.
    unfold shape in Hs. injection Hs as Hi Ho _ _ _ _ _.
    split; [exact Hi|]. split; [exact Ho|].
    intros HBF. specialize (Hgen HBF). unfold windows_generated in *.
    unfold configuration in Hc.
    rewrite Hi, Ho.
    replace (fft_size self) with (fft_size self0) by congruence.
    replace (window_option_input self) with (window_option_input self0)
      by congruence.
    replace (window_option_output self) with (window_option_output self0)
      by congruence.
    exact Hgen.
  - intros ops self Hops. exists (reset_result self).
    split; [|by unfold reset_result].
    apply stft_p_reset_allocated. by eapply allocated_perform_all.
Qed.

(** ** Further properties of the code *)

Lemma stft_p_init_spec sample_rate :
  stft_p_init sample_rate
  = Some (init_result FFT_SIZE BLOCK_SIZE INPUT_WINDOW_TYPE OUTPUT_WINDOW_TYPE
            OVERLAP_FACTOR sample_rate).
Proof.
  unfold stft_p_init.
  exact (stft_p_init_with_spec FFT_SIZE BLOCK_SIZE INPUT_WINDOW_TYPE
           OUTPUT_WINDOW_TYPE OVERLAP_FACTOR sample_rate
           default_configuration_valid).
Qed.

Lemma configuration_init_result F B WI WO OV sr :
  configuration (init_result F B WI WO OV sr)
  = (F, B, OV, F `quot` OV, F - F `quot` OV, WI, WO,
     fftwf_plan_r2r_1d F FFTW_R2HC, fftwf_plan_r2r_1d F FFTW_HC2R).
Proof. reflexivity. Qed.

(** X1: [stft_p_init] returns a processor for every sample rate, and every
    sequence of [run] and [reset] calls that stay inside the caller's arrays
    returns as well: with the hardcoded sizes no operation ever leaves an
    array, and the processor stays well-formed, with a hop of 512 and a
    latency of 1536. *)
Theorem default_processor_safe sample_rate ops :
  forallb in_bounds ops = true →
  ∃ self0 self,
    stft_p_init sample_rate = Some self0
    ∧ perform_all self0 ops = Some self
    ∧ wf self0 ∧ wf self
    ∧ fft_size self = 2048 ∧ block_size self = 2048 ∧ hop self = 512
    ∧ stft_p_get_latency self = 1536.
Proof.
  intros Hops.
  pose proof (stft_p_init_spec sample_rate) as Hinit.
  pose proof (wf_init_result FFT_SIZE BLOCK_SIZE INPUT_WINDOW_TYPE
                OUTPUT_WINDOW_TYPE OVERLAP_FACTOR sample_rate
                default_configuration_valid) as Hwf0.
  pose proof (configuration_init_result FFT_SIZE BLOCK_SIZE INPUT_WINDOW_TYPE
                OUTPUT_WINDOW_TYPE OVERLAP_FACTOR sample_rate) as Hc0.
  revert Hinit Hwf0 Hc0.
  generalize (init_result FFT_SIZE BLOCK_SIZE INPUT_WINDOW_TYPE
                OUTPUT_WINDOW_TYPE OVERLAP_FACTOR sample_rate).
  intros self0 Hinit Hwf0 Hc0.
  destruct (perform_all_total self0 ops Hwf0 Hops) as [self Hself].
  exists self0, self.
  split; [exact Hinit|]. split; [exact Hself|]. split; [exact Hwf0|].
  split; [by eapply wf_perform_all|].
  pose proof (configuration_perform_all _ _ _ Hself) as Hc.
  rewrite Hc0 in Hc.
  unfold configuration, stft_p_get_latency in *.
  injection Hc as -> -> _ -> -> _ _ _ _.
  repeat split; reflexivity.
Qed.

(** [for (k = 0; k < n; k++) b[k] = b[k + c];] reads beyond an array with
    fewer than [n + c] entries. *)
Lemma loop_shift_down_out_of_bounds (b : list float) (n : nat) (c : Z) :
  (0 < n)%nat → 0 ≤ c → len b < Z.of_nat n + c →
  for_loop n 0 (λ k b, do x <- rd b (k + c); wr b k x) b = None.
Proof.
  intros Hn Hc Hlen.
  replace n with ((n - 1) + 1)%nat by lia.
  rewrite for_loop_app.
  destruct (for_loop (n - 1) 0 _ b) as [b'|] eqn:E; [|done].
  apply for_loop_wr_length in E.
  - cbn [for_loop].
    destruct (rd b' (0 + Z.of_nat (n - 1) + c)) as [x|] eqn:Hx; [|done].
    apply rd_Some in Hx as [Hx _]. unfold len in *. lia.
  - intros j b1 b2 H.
    destruct (rd b1 (j + c)) as [x|]; [|done]. by eapply wr_length.
Qed.

(** X2: [stft_p_synthesis] shifts the input FIFO down by reading the entries
    up to index [input_latency + hop - 1].  On a processor whose FIFO is
    shorter than [input_latency + hop] (as [stft_p_init] would make it for
    any block size below the transform size, where
    [input_latency + hop = fft_size]) the synthesis leaves the array. *)
Theorem synthesis_needs_whole_block self :
  0 ≤ hop self → 1 ≤ input_latency self →
  len (in_fifo self) < input_latency self + hop self →
  stft_p_synthesis self = None.
Proof.
  intros Hhop Hlat Hlen. unfold stft_p_synthesis, fftwf_execute.
  repeat match goal with
  | |- match (if ?b then _ else _) with _ => _ end = None =>
      destruct b; [|reflexivity]
  | |- match (match ?k with FFTW_R2HC => _ | FFTW_HC2R => _ end) with
       | _ => _ end = None => destruct k
  | |- match ?m with Some _ => _ | None => None end = None =>
      lazymatch m with
      | for_lt 0 (input_latency _) _ (in_fifo _) => fail
      | _ => destruct m; [|reflexivity]
      end
  end; fields; unfold for_lt; rewrite Z.sub_0_r;
    rewrite loop_shift_down_out_of_bounds; (done || lia).
Qed.

Lemma rd_splice (a vs : list float) (off : nat) (i : Z) :
  (off + length vs ≤ length a)%nat →
  rd (splice a off vs) i
  = if (Z.of_nat off <=? i) && (i <? Z.of_nat (off + length vs))
    then rd vs (i - Z.of_nat off) else rd a i.
Proof.
  intros Hlen. unfold rd.
  destruct (Z.ltb_spec i 0) as [Hi|Hi].
  - destruct (Z.leb_spec (Z.of_nat off) i); [lia|done].
  - destruct (Z.leb_spec (Z.of_nat off) i);
      destruct (Z.ltb_spec i (Z.of_nat (off + length vs))); cbn [andb].
    + destruct (Z.ltb_spec (i - Z.of_nat off) 0); [lia|].
      rewrite lookup_splice_mid by lia. f_equal. lia.
    + by rewrite lookup_splice_ge by lia.
    + by rewrite lookup_splice_lt by lia.
    + lia.
Qed.

(** X3: what [stft_p_zeropad] does to the time-domain buffer.  With a block
    shorter than the transform it stores its [fft_size - block_size] zeros
    at the indices [block_size - 1] to [fft_size - 2] and leaves every other
    entry, the last one included, as it is; with a block that is not shorter
    it changes nothing; with an empty block it writes before the array. *)
Theorem zeropad_range self :
  len (input_fft_buffer self) = fft_size self →
  (fft_size self ≤ block_size self →
   ∃ self', stft_p_zeropad self = Some self'
            ∧ input_fft_buffer self' = input_fft_buffer self)
  ∧ (1 ≤ block_size self < fft_size self →
     ∃ self', stft_p_zeropad self = Some self'
       ∧ len (input_fft_buffer self') = fft_size self
       ∧ ∀ i, rd (input_fft_buffer self') i
              = if (block_size self - 1 <=? i) && (i <? fft_size self - 1)
                then Some F32.zero
                else rd (input_fft_buffer self) i)
  ∧ (block_size self ≤ 0 < fft_size self → stft_p_zeropad self = None).
Proof.
  intros Hlen. unfold len in Hlen. split; [|split].
  - intros Hge. unfold stft_p_zeropad, for_le.
    replace (Z.to_nat (fft_size self - block_size self - 1 + 1 - 0))
      with 0%nat by lia.
    by eexists.
  - intros Hlt. unfold stft_p_zeropad, for_le.
    replace (fft_size self - block_size self - 1 + 1 - 0)
      with (fft_size self - block_size self) by lia.
    rewrite (loop_store_const _ _ (Z.to_nat (block_size self - 1)))
      by lia.
    eexists. split; [done|]. fields.
    assert (length (replicate (Z.to_nat (fft_size self - block_size self))
                      F32.zero)
            = Z.to_nat (fft_size self - block_size self)) as Hrep
      by apply length_replicate.
    split.
    + unfold len. rewrite length_splice by lia. done.
    + intros i. rewrite rd_splice by lia. rewrite Hrep.
      replace (Z.of_nat (Z.to_nat (block_size self - 1)))
        with (block_size self - 1) by lia.
      replace (Z.of_nat (Z.to_nat (block_size self - 1)
                         + Z.to_nat (fft_size self - block_size self)))
        with (fft_size self - 1) by lia.
      destruct (Z.leb_spec (block_size self - 1) i);
        destruct (Z.ltb_spec i (fft_size self - 1)); cbn [andb]; try done.
      unfold rd. destruct (Z.ltb_spec (i - (block_size self - 1)) 0); [lia|].
      apply lookup_replicate_2. lia.
  - intros Hle. unfold stft_p_zeropad, for_le.
    replace (Z.to_nat (fft_size self - block_size self - 1 + 1 - 0))
      with (Datatypes.S (Z.to_nat (fft_size self - block_size self) - 1))
      by lia.
    cbn [for_loop]. unfold wr at 1.
    destruct (Z.leb_spec 0 (block_size self - 1 + 0)); [lia|done].
Qed.

(** X4: [stft_p_reset] fills the seven arrays with zeros and touches nothing
    else: the read position, the scale factor, the spectral stage and the
    configuration stay; resetting twice is resetting once. *)
Theorem reset_zeroes_arrays self :
  allocated self →
  ∃ self',
    stft_p_reset self = Some self'
    ∧ input_fft_buffer self' = zeros (fft_size self)
    ∧ output_fft_buffer self' = zeros (fft_size self)
    ∧ input_window self' = zeros (fft_size self)
    ∧ output_window self' = zeros (fft_size self)
    ∧ in_fifo self' = zeros (block_size self)
    ∧ out_fifo self' = zeros (block_size self)
    ∧ output_accum self' = zeros (block_size self * 2)
    ∧ read_position self' = read_position self
    ∧ overlap_scale_factor self' = overlap_scale_factor self
    ∧ fft_processor self' = fft_processor self
    ∧ configuration self' = configuration self
    ∧ stft_p_reset self' = Some self'.
Proof.
  intros Hal. exists (reset_result self).
  split; [by apply stft_p_reset_allocated|].
  repeat (split; [reflexivity|]).
  assert (allocated (reset_result self)) as Hal'.
  { destruct Hal. pose proof (len_nonneg (in_fifo self)).
    pose proof (len_nonneg (input_window self)).
    split; unfold reset_result; fields; try done; apply len_zeros; lia. }
  rewrite stft_p_reset_allocated by done. reflexivity.
Qed.

Lemma window_after_spec old t N :
  0 ≤ N ≤ len old →
  length (window_after old t N) = length old
  ∧ drop (Z.to_nat N) (window_after old t N) = drop (Z.to_nat N) old
  ∧ (window_known t = false → window_after old t N = old)
  ∧ (window_known t = true →
     take (Z.to_nat N) (window_after old t N)
     = tabulate N (window_sample t N)).
Proof.
  intros HN. split; [by apply length_window_after|].
  unfold window_after, len in *.
  destruct (window_known t); (split; [|split]); try done.
  - rewrite (splice_front _ _ (Z.to_nat N)) by apply length_tabulate.
    by rewrite drop_app_length' by (by rewrite length_tabulate).
  - intros _.
    rewrite (splice_front _ _ (Z.to_nat N)) by apply length_tabulate.
    by rewrite take_app_length' by (by rewrite length_tabulate).
Qed.

(** X5: the window setup writes the first [block_size] coefficients of a
    window, generated for its type and the length [block_size], and nothing
    else: the entries from [block_size] on stay as they were, and a window
    whose type is none of 0, 1, 2, 3 is not written at all (the [switch]
    statements have no default case). *)
Theorem window_setup_writes_block_only self :
  allocated self →
  ∃ self',
    stft_p_pre_and_post_window self = Some self'
    ∧ len (input_window self') = fft_size self
    ∧ len (output_window self') = fft_size self
    ∧ drop (Z.to_nat (block_size self)) (input_window self')
      = drop (Z.to_nat (block_size self)) (input_window self)
    ∧ drop (Z.to_nat (block_size self)) (output_window self')
      = drop (Z.to_nat (block_size self)) (output_window self)
    ∧ (window_known (window_option_input self) = true →
       take (Z.to_nat (block_size self)) (input_window self')
       = tabulate (block_size self)
           (window_sample (window_option_input self) (block_size self)))
    ∧ (window_known (window_option_output self) = true →
       take (Z.to_nat (block_size self)) (output_window self')
       = tabulate (block_size self)
           (window_sample (window_option_output self) (block_size self)))
    ∧ (window_known (window_option_input self) = false →
       input_window self' = input_window self)
    ∧ (window_known (window_option_output self) = false →
       output_window self' = output_window self).
Proof.
  intros Hal. exists (pre_and_post_window_result self).
  split; [by apply stft_p_pre_and_post_window_allocated|].
  destruct Hal. pose proof (len_nonneg (in_fifo self)).
  destruct (window_after_spec (input_window self) (window_option_input self)
              (block_size self)) as (Hi1 & Hi2 & Hi3 & Hi4); [lia|].
  destruct (window_after_spec (output_window self)
              (window_option_output self) (block_size self))
    as (Ho1 & Ho2 & Ho3 & Ho4); [lia|].
  unfold pre_and_post_window_result. fields. unfold len in *.
  rewrite Hi1, Ho1. done.
Qed.

(** ** The output FIFO *)

Lemma out_fifo_cycle_result self enable :
  wf (set_read_position (input_latency self) self) →
  ∃ front,
    length front = Z.to_nat (hop self)
    ∧ out_fifo (cycle_result self enable)
      = front ++ drop (Z.to_nat (hop self)) (out_fifo self).
Proof.
  intros []. fields. unfold len in *.
  unfold cycle_result, synthesis_result, processing_result, analysis_result,
    zeropad_result.
  fields. destruct (_ <? _); fields; (eexists; split; [|reflexivity]);
    rewrite length_take, length_app, !length_zip_with, !length_take,
      length_drop, length_zip_with, length_tabulate; lia.
Qed.

Lemma out_fifo_tail_sample self x enable :
  wf self →
  drop (Z.to_nat (hop (sample_result self x enable).1))
    (out_fifo (sample_result self x enable).1)
  = drop (Z.to_nat (hop self)) (out_fifo self).
Proof.
  intros Hwf.
  rewrite hop_sample_result.
  unfold sample_result. fields. destruct (cycle_due self); [|done].
  destruct (out_fifo_cycle_result
              (set_read_position (read_position self + 1)
                 (set_in_fifo
                    (<[Z.to_nat (read_position self):=x]> (in_fifo self))
                    self)) enable) as (front & Hfront & ->);
    [exact (wf_sample_stored self x Hwf)|].
  fields. by rewrite drop_app_length' by done.
Qed.

(** X6: the output FIFO is allocated with [block_size] entries, but only
    its first [hop] entries are ever written: in every state reached from
    the initialization the entries from [hop] on are zero. *)
Theorem out_fifo_tail_unused F B WI WO OV sr self0 ops self :
  valid_configuration F B OV →
  stft_p_init_with F B WI WO OV sr = Some self0 →
  perform_all self0 ops = Some self →
  ∀ i, hop self ≤ i < block_size self →
       rd (out_fifo self) i = Some F32.zero.
Proof.
  intros Hv Hinit Hops i Hi.
  rewrite stft_p_init_with_spec in Hinit by done. injection Hinit as <-.
  pose proof (wf_init_result F B WI WO OV sr Hv) as Hwf0.
  assert (wf self) as Hwf by (by eapply wf_perform_all).
  assert (drop (Z.to_nat (hop self)) (out_fifo self)
          = zeros (block_size self - hop self)) as Htail.
  { apply (perform_all_preserves
             (λ s, drop (Z.to_nat (hop s)) (out_fifo s)
                   = zeros (block_size s - hop s))
             (init_result F B WI WO OV sr) ops); try done.
    - intros s x e Hs Hd.
      rewrite out_fifo_tail_sample, block_size_sample_result,
        hop_sample_result by done. exact Hd.
    - intros s Hs _. destruct Hs. unfold reset_result. fields.
      apply drop_zeros. lia.
    - destruct Hwf0. destruct Hv as (-> & _ & _).
      change (out_fifo (init_result F F WI WO OV sr)) with (zeros F).
      apply drop_zeros.
      change (0 ≤ hop (init_result F F WI WO OV sr)
                ≤ block_size (init_result F F WI WO OV sr)). lia. }
  pose proof Hwf as []. unfold rd, len in *.
  destruct (Z.ltb_spec i 0); [lia|].
  replace (Z.to_nat i)
    with (Z.to_nat (hop self) + (Z.to_nat i - Z.to_nat (hop self)))%nat
    by lia.
  rewrite <- lookup_drop, Htail. apply lookup_replicate_2. lia.
Qed.

(** ** Frames *)

Lemma hop_positive self : wf self → 0 < hop self.
Proof. intros []. lia. Qed.

Lemma samples_result_frames self xs enable :
  wf self →
  let t := read_position self - input_latency self + Z.of_nat (length xs) in
  read_position (samples_result self xs enable).1
  = input_latency self + t `mod` hop self
  ∧ pending (samples_result self xs enable).1
    = drop (Z.to_nat (hop self * (t `div` hop self))) (pending self ++ xs).
Proof.
  revert self. induction xs as [|x xs IH]; intros self Hwf t.
  - pose proof Hwf as []. subst t. cbn [samples_result fst length].
    rewrite Z.add_0_r, Z.mod_small, Z.div_small by lia.
    rewrite Z.mul_0_r, app_nil_r. split; [lia|done].
  - rewrite samples_result_cons. cbn [fst].
    pose proof (wf_sample_result self x enable Hwf) as Hwf1.
    destruct (IH _ Hwf1) as [Hrp Hq]. clear IH.
    rewrite Hrp, Hq. clear Hrp Hq.
    rewrite pending_sample_result, read_position_sample_result,
      input_latency_sample_result, hop_sample_result by done.
    pose proof (length_pending self Hwf) as Hlen.
    pose proof (hop_positive self Hwf) as Hhop.
    pose proof Hwf as []. subst t. unfold cycle_due. cbn [length].
    destruct (Z.leb_spec (block_size self) (read_position self + 1)).
    + replace (input_latency self - input_latency self
               + Z.of_nat (length xs)) with (Z.of_nat (length xs)) by lia.
      replace (read_position self - input_latency self
               + Z.of_nat (Datatypes.S (length xs)))
        with (Z.of_nat (length xs) + 1 * hop self) by lia.
      rewrite Z_mod_plus_full, Z_div_plus_full by lia.
      split; [done|].
      rewrite <- drop_app_le by (rewrite length_app; cbn [length]; lia).
      rewrite <- (assoc_L (++)). cbn [app]. rewrite drop_drop. f_equal.
      pose proof (Z.div_pos (Z.of_nat (length xs)) (hop self)). nia.
    + replace (read_position self + 1 - input_latency self
               + Z.of_nat (length xs))
        with (read_position self - input_latency self
              + Z.of_nat (Datatypes.S (length xs))) by lia.
      split; [done|].
      rewrite drop_0, <- (assoc_L (++)). done.
Qed.

(** X7: the input queue is a sliding window over the signal.  From a
    well-formed processor whose read position is [j] past the latency, after
    [n] samples the read position is [(j + n) mod hop] past the latency, and
    the queue is the old queue followed by the [n] samples, without its
    [hop * ((j + n) / hop)] oldest entries: each of the [(j + n) / hop]
    cycles has released [hop] samples, so consecutive frames overlap in
    [block_size - hop] samples. *)
Theorem input_queue_sliding_window self n input output enable :
  wf self → 0 ≤ n → n ≤ len input → n ≤ len output →
  ∃ self' output',
    stft_p_run self n input output enable = Some (self', output')
    ∧ read_position self'
      = input_latency self
        + (read_position self - input_latency self + n) `mod` hop self
    ∧ pending self'
      = drop (Z.to_nat
                (hop self
                 * ((read_position self - input_latency self + n)
                    `div` hop self)))
          (pending self ++ take (Z.to_nat n) input).
Proof.
  intros Hwf Hn Hin Hout. eexists _, _.
  split; [by apply stft_p_run_spec|].
  pose proof (samples_result_frames self (take (Z.to_nat n) input) enable
                Hwf) as H.
  cbv zeta in H. unfold len in *.
  rewrite length_take, Nat.min_l in H by lia.
  by rewrite Z2Nat.id in H by lia.
Qed.

(** ** Output samples between two cycles *)

Lemma samples_result_before_cycle self xs enable :
  wf self →
  Z.of_nat (length xs) ≤ block_size self - read_position self →
  (samples_result self xs enable).2
  = take (length xs)
      (drop (Z.to_nat (read_position self - input_latency self))
         (out_fifo self)).
Proof.
  revert self. induction xs as [|x xs IH]; intros self Hwf Hlen; [done|].
  rewrite samples_result_cons. cbn [snd length] in *.
  pose proof (wf_sample_result self x enable Hwf) as Hwf1.
  pose proof Hwf as []. unfold len in *.
  destruct (lookup_lt_is_Some_2 (out_fifo self)
              (Z.to_nat (read_position self - input_latency self)))
    as [y Hy]; [lia|].
  rewrite (drop_S _ _ _ Hy). rewrite firstn_cons. f_equal.
  - unfold sample_result. cbn [snd]. unfold nth_float, rd.
    destruct (Z.ltb_spec (read_position self - input_latency self) 0);
      [lia|]. by rewrite Hy.
  - destruct xs as [|x' xs]; [done|].
    rewrite IH; [|done|].
    + rewrite read_position_sample_result, input_latency_sample_result.
      unfold cycle_due.
      destruct (Z.leb_spec (block_size self) (read_position self + 1));
        [cbn [length] in Hlen; lia|].
      unfold sample_result, cycle_due.
      destruct (Z.leb_spec (block_size self) (read_position self + 1));
        [lia|].
      fields. do 2 f_equal. lia.
    + rewrite read_position_sample_result, block_size_sample_result.
      unfold cycle_due.
      destruct (Z.leb_spec (block_size self) (read_position self + 1));
        cbn [length] in *; lia.
Qed.

(** X8: until a cycle has run, [run] emits the entries of the output FIFO
    in their order, starting at the read position: a call that does not
    outlast the current block returns samples that do not depend on the
    samples it is given. *)
Theorem outputs_before_cycle self n input output enable :
  wf self → 0 ≤ n ≤ block_size self - read_position self →
  n ≤ len input → n ≤ len output →
  ∃ self' output',
    stft_p_run self n input output enable = Some (self', output')
    ∧ take (Z.to_nat n) output'
      = take (Z.to_nat n)
          (drop (Z.to_nat (read_position self - input_latency self))
             (out_fifo self)).
Proof.
  intros Hwf Hn Hin Hout. eexists _, _.
  split; [by apply stft_p_run_spec|].
  assert (length (take (Z.to_nat n) input) = Z.to_nat n) as Hl
    by (unfold len in *; rewrite length_take; lia).
  rewrite take_app_length'
    by (by rewrite length_samples_result).
  rewrite samples_result_before_cycle by (done || lia).
  by rewrite Hl.
Qed.

(** ** Reset followed by the window setup *)

Lemma arrays_setup_after_reset self :
  arrays (pre_and_post_window_result (reset_result self))
  = let win := window_after (zeros (fft_size self))
                 (window_option_input self) (block_size self) in
    let wout := window_after (zeros (fft_size self))
                  (window_option_output self) (block_size self) in
    let n := Z.to_nat (block_size self) in
    (win, wout,
     F32.div (inner_product (take n win) (take n wout))
       (F32.of_int (block_size self)),
     zeros (block_size self), zeros (block_size self),
     zeros (block_size self * 2), zeros (fft_size self),
     zeros (fft_size self)).
Proof. reflexivity. Qed.

Lemma arrays_init_result F B WI WO OV sr :
  arrays (init_result F B WI WO OV sr)
  = let win := window_after (zeros F) WI B in
    let wout := window_after (zeros F) WO B in
    let n := Z.to_nat B in
    (win, wout,
     F32.div (inner_product (take n win) (take n wout)) (F32.of_int B),
     zeros B, zeros B, zeros (B * 2), zeros F, zeros F).
Proof. reflexivity. Qed.

(** X9: [reset] alone leaves a processor with zero windows, but [reset]
    followed by the window setup, the two steps of the initialization, puts
    the windows, the scale factor and all five signal arrays of a processor
    back to what they were right after its initialization, at any point of
    its lifetime.  The read position is not put back: it stays where the
    stream left it. *)
Theorem reset_then_setup_restores F B WI WO OV sr self0 ops self :
  valid_configuration F B OV →
  stft_p_init_with F B WI WO OV sr = Some self0 →
  perform_all self0 ops = Some self →
  ∃ self1 self2,
    stft_p_reset self = Some self1
    ∧ stft_p_pre_and_post_window self1 = Some self2
    ∧ arrays self2 = arrays self0
    ∧ read_position self2 = read_position self
    ∧ wf self2.
Proof.
  intros Hv Hinit Hops.
  rewrite stft_p_init_with_spec in Hinit by done. injection Hinit as <-.
  pose proof (wf_init_result F B WI WO OV sr Hv) as Hwf0.
  assert (wf self) as Hwf by (by eapply wf_perform_all).
  pose proof (configuration_perform_all _ _ _ Hops) as Hc.
  rewrite configuration_init_result in Hc.
  exists (reset_result self), (pre_and_post_window_result (reset_result self)).
  split; [by apply stft_p_reset_spec|].
  split; [by apply stft_p_pre_and_post_window_spec, wf_reset_result|].
  split; [|split; [reflexivity|]].
  - rewrite arrays_setup_after_reset, arrays_init_result.
    unfold configuration in Hc. injection Hc as -> -> _ _ _ -> -> _ _. done.
  - by apply wf_pre_and_post_window_result, wf_reset_result.
Qed.

(** ** The delay of the processor *)

Lemma take_tabulate_ext (n : Z) (m : nat) (f f' : Z → float) :
  (∀ k, 0 ≤ k < Z.of_nat m → f k = f' k) →
  take m (tabulate n f) = take m (tabulate n f').
Proof.
  intros H. apply list_eq. intros i.
  destruct (decide (i < m)%nat) as [Hi|Hi].
  - rewrite !lookup_take_lt by done.
    destruct (decide (i < Z.to_nat n)%nat) as [Hn|Hn].
    + rewrite !lookup_tabulate by done. f_equal. apply H. lia.
    + rewrite !lookup_ge_None_2; [done| |]; rewrite length_tabulate; lia.
  - by rewrite !lookup_take_ge by lia.
Qed.

Lemma nth_float_take (m : nat) (a b : list float) (k : Z) :
  take m a = take m b → 0 ≤ k < Z.of_nat m → nth_float a k = nth_float b k.
Proof.
  intros Hab Hk. unfold nth_float, rd.
  destruct (Z.ltb_spec k 0); [lia|].
  rewrite <- (lookup_take_lt a m), <- (lookup_take_lt b m) by lia.
  by rewrite Hab.
Qed.

Lemma nth_float_zip_with (f : float → float → float) (a b : list float) k :
  0 ≤ k < len a → 0 ≤ k < len b →
  nth_float (zip_with f a b) k = f (nth_float a k) (nth_float b k).
Proof.
  intros Ha Hb. unfold nth_float, rd, len in *.
  destruct (Z.ltb_spec k 0); [lia|].
  rewrite lookup_zip_with.
  destruct (lookup_lt_is_Some_2 a (Z.to_nat k)) as [x ->]; [lia|].
  by destruct (lookup_lt_is_Some_2 b (Z.to_nat k)) as [y ->]; [lia|].
Qed.

(** The frame a cycle adds to the accumulator, when the transforms and the
    stage act sample by sample and the block is the whole transform. *)
Lemma frame_cycle_result g self enable :
  samplewise g →
  wf (set_read_position (input_latency self) self) →
  block_size self = fft_size self →
  input_fft_buffer (cycle_result self enable)
  = zip_with (synthesis_sample self) (output_window self)
      (tabulate (fft_size self)
         (λ k, g (fft_size self) k
                 (F32.mul (nth_float (in_fifo self) k)
                    (nth_float (input_window self) k)))).
Proof.
  intros Hg Hwf Hfull. destruct Hwf. fields. unfold len in *.
  unfold cycle_result, synthesis_result, processing_result, analysis_result,
    zeropad_result.
  fields. rewrite Hfull, Z.ltb_irrefl. fields.
  rewrite take_ge, drop_ge, app_nil_r by lia.
  set (windowed := zip_with F32.mul (in_fifo self) (input_window self)).
  assert (len windowed = fft_size self) as Hlen
    by (unfold len, windowed; rewrite length_zip_with; lia).
  unfold synthesis_sample. fields. f_equal.
  apply tabulate_ext. intros k Hk.
  rewrite <- Hlen at 1 2 3. rewrite Hg by lia. rewrite Hlen. f_equal.
  unfold windowed. apply nth_float_zip_with; unfold len; lia.
Qed.

Lemma take_agree (k m : nat) (a b : list float) :
  (k ≤ m)%nat → take m a = take m b → take k a = take k b.
Proof.
  intros Hk Hab.
  rewrite <- (Nat.min_l k m), <- !take_take by done. by rewrite Hab.
Qed.

Lemma take_overlap_add (m n : nat) (acc frame rest : list float) :
  (m ≤ n)%nat → (n ≤ length acc)%nat → (n ≤ length frame)%nat →
  take m (zip_with F32.add (take n acc) (take n frame) ++ rest)
  = zip_with F32.add (take m acc) (take m frame).
Proof.
  intros Hmn Ha Hf.
  rewrite take_app_le by (rewrite length_zip_with, !length_take; lia).
  rewrite zip_with_take, !take_take.
  by rewrite !Nat.min_l by done.
Qed.

(** Moving an array down by [h] entries, as the cycle does with the input
    FIFO and with the accumulator, keeps an agreement on the first [m]
    entries as one on the first [m - h]. *)
Lemma take_shift (m h l : nat) (a b : list float) :
  (h ≤ m)%nat → (m ≤ l + h)%nat →
  (l + h ≤ length a)%nat → (l + h ≤ length b)%nat →
  take m a = take m b →
  take (m - h) (take l (drop h a) ++ drop l a)
  = take (m - h) (take l (drop h b) ++ drop l b).
Proof.
  intros Hh Hm Ha Hb Hab.
  rewrite !take_app_le by (rewrite length_take, length_drop; lia).
  rewrite !take_take, !Nat.min_l by lia.
  rewrite !take_drop_commute.
  replace (h + (m - h))%nat with m by lia. by rewrite Hab.
Qed.

(** What a cycle does with the frame it has synthesized: the frame is added
    to the accumulator, the first [hop] sums go to the output FIFO and the
    accumulator moves down by [hop]. *)
Lemma overlap_add_cycle_result self enable :
  out_fifo (cycle_result self enable)
  = take (Z.to_nat (hop self))
      (zip_with F32.add
         (take (Z.to_nat (block_size self)) (output_accum self))
         (take (Z.to_nat (block_size self))
            (input_fft_buffer (cycle_result self enable)))
       ++ drop (Z.to_nat (block_size self)) (output_accum self))
    ++ drop (Z.to_nat (hop self)) (out_fifo self)
  ∧ output_accum (cycle_result self enable)
    = take (Z.to_nat (block_size self))
        (drop (Z.to_nat (hop self))
           (zip_with F32.add
              (take (Z.to_nat (block_size self)) (output_accum self))
              (take (Z.to_nat (block_size self))
                 (input_fft_buffer (cycle_result self enable)))
            ++ drop (Z.to_nat (block_size self)) (output_accum self)))
      ++ drop (Z.to_nat (block_size self))
           (zip_with F32.add
              (take (Z.to_nat (block_size self)) (output_accum self))
              (take (Z.to_nat (block_size self))
                 (input_fft_buffer (cycle_result self enable)))
            ++ drop (Z.to_nat (block_size self)) (output_accum self)).
Proof.
  unfold cycle_result, synthesis_result, processing_result, analysis_result,
    zeropad_result.
  fields. by destruct (_ <? _).
Qed.

Lemma fixed_cycle_result self enable :
  configuration (cycle_result self enable) = configuration self
  ∧ input_window (cycle_result self enable) = input_window self
  ∧ output_window (cycle_result self enable) = output_window self
  ∧ overlap_scale_factor (cycle_result self enable)
    = overlap_scale_factor self.
Proof.
  unfold cycle_result, synthesis_result, processing_result, analysis_result,
    zeropad_result.
  fields. by destruct (_ <? _).
Qed.

(** A cycle keeps two processors in agreement, on [hop] entries fewer. *)
Lemma agree_cycle_result g (m : nat) s t e1 e2 :
  samplewise g →
  wf (set_read_position (input_latency s) s) →
  wf (set_read_position (input_latency t) t) →
  agree m s t → (Z.to_nat (hop s) ≤ m)%nat →
  agree (m - Z.to_nat (hop s)) (cycle_result s e1) (cycle_result t e2).
Proof.
  intros Hg Hs Ht [Hc Hfull Hrp Hwi Hwo Hsc Hout Hin Hacc Hb] Hm.
  pose proof Hc as Hconf. unfold configuration in Hc.
  assert (fft_size t = fft_size s) as Hfft by congruence.
  assert (block_size t = block_size s) as Hblock by congruence.
  assert (overlap_factor t = overlap_factor s) as Hov by congruence.
  assert (hop t = hop s) as Hhop by congruence.
  assert (input_latency t = input_latency s) as Hlat by congruence.
  destruct (fixed_cycle_result s e1) as (Hc1 & Hwi1 & Hwo1 & Hsc1).
  destruct (fixed_cycle_result t e2) as (Hc2 & Hwi2 & Hwo2 & Hsc2).
  destruct (overlap_add_cycle_result s e1) as [Ho1 Ha1].
  destruct (overlap_add_cycle_result t e2) as [Ho2 Ha2].
  pose proof (wf_input_fft_buffer _ (wf_cycle_result s e1 Hs)) as Hl1.
  pose proof (wf_input_fft_buffer _ (wf_cycle_result t e2 Ht)) as Hl2.
  assert (fft_size (cycle_result s e1) = fft_size s) as Hf1
    by (unfold configuration in Hc1; congruence).
  assert (fft_size (cycle_result t e2) = fft_size s) as Hf2
    by (unfold configuration in Hc2; congruence).
  rewrite Hf1 in Hl1. rewrite Hf2 in Hl2.
  assert (take m (input_fft_buffer (cycle_result s e1))
          = take m (input_fft_buffer (cycle_result t e2))) as Hframe.
  { rewrite (frame_cycle_result g s e1), (frame_cycle_result g t e2)
      by (done || congruence).
    rewrite !zip_with_take. unfold synthesis_sample.
    rewrite Hfft, Hov, <- Hsc, <- Hwo. f_equal.
    apply take_tabulate_ext. intros k Hk. rewrite <- Hwi. do 2 f_equal.
    by apply (nth_float_take m). }
  generalize dependent (input_fft_buffer (cycle_result s e1)).
  generalize dependent (input_fft_buffer (cycle_result t e2)).
  intros ft Ho2 Ha2 Hl2 fs Ho1 Ha1 Hl1 Hframe.
  destruct Hs, Ht. fields. unfold len in *.
  set (n := Z.to_nat (block_size s)) in *.
  set (h := Z.to_nat (hop s)) in *.
  assert (take m (zip_with F32.add (take n (output_accum s)) (take n fs)
                  ++ drop n (output_accum s))
          = take m (zip_with F32.add (take n (output_accum t)) (take n ft)
                    ++ drop n (output_accum t))) as Hsum.
  { rewrite !take_overlap_add by lia. by rewrite Hacc, Hframe. }
  split.
  - by rewrite Hc1, Hc2.
  - unfold configuration in Hc1. congruence.
  - rewrite !read_position_cycle_result. congruence.
  - congruence.
  - congruence.
  - congruence.
  - rewrite Ho1, Ho2, Hhop, Hblock, Hout. fold n h. f_equal.
    by apply (take_agree h m).
  - rewrite !in_fifo_cycle_result, Hhop, Hlat. fold h.
    apply take_shift; (done || lia).
  - rewrite Ha1, Ha2, Hhop, Hblock. fold n h.
    apply take_shift; [done|lia| | |done];
      rewrite length_app, length_zip_with, !length_take, length_drop; lia.
  - unfold configuration in Hc1.
    replace (input_latency (cycle_result s e1)) with (input_latency s)
      by congruence.
    lia.
Qed.

Lemma agree_sample_stored (m : nat) s t x y :
  wf s → agree m s t →
  agree m
    (set_read_position (read_position s + 1)
       (set_in_fifo (<[Z.to_nat (read_position s):=x]> (in_fifo s)) s))
    (set_read_position (read_position t + 1)
       (set_in_fifo (<[Z.to_nat (read_position t):=y]> (in_fifo t)) t)).
Proof.
  intros Hwf [Hc Hfull Hrp Hwi Hwo Hsc Hout Hin Hacc Hb].
  pose proof Hwf as []. rewrite <- Hrp.
  split; fields; try done.
  - by rewrite !take_insert_ge by lia.
Qed.

Lemma agree_cycle_due (m : nat) s t :
  agree m s t → cycle_due t = cycle_due s.
Proof.
  intros [Hc _ Hrp _ _ _ _ _ _ _]. unfold configuration in Hc.
  unfold cycle_due. rewrite <- Hrp.
  by replace (block_size t) with (block_size s) by congruence.
Qed.

(** The sample a processor returns is the same in two processors in
    agreement, whatever sample each is given. *)
Lemma agree_sample_output (m : nat) s t x y e1 e2 :
  agree m s t → (sample_result s x e1).2 = (sample_result t y e2).2.
Proof.
  intros [Hc _ Hrp _ _ _ Hout _ _ _]. unfold configuration in Hc.
  unfold sample_result. cbn [snd]. rewrite <- Hrp, <- Hout.
  by replace (input_latency t) with (input_latency s) by congruence.
Qed.

Lemma agree_sample_result g (m : nat) s t x y e1 e2 :
  samplewise g → wf s → wf t → agree m s t →
  (cycle_due s = true → (Z.to_nat (hop s) ≤ m)%nat) →
  agree (if cycle_due s then m - Z.to_nat (hop s) else m)%nat
    (sample_result s x e1).1 (sample_result t y e2).1.
Proof.
  intros Hg Hs Ht Hag Hm.
  pose proof (agree_sample_stored m s t x y Hs Hag) as Hst.
  unfold sample_result. cbn [fst]. rewrite (agree_cycle_due m s t Hag).
  destruct (cycle_due s); [|done].
  refine (agree_cycle_result g m
            (set_read_position (read_position s + 1)
               (set_in_fifo (<[Z.to_nat (read_position s):=x]> (in_fifo s))
                  s))
            (set_read_position (read_position t + 1)
               (set_in_fifo (<[Z.to_nat (read_position t):=y]> (in_fifo t))
                  t))
            e1 e2 Hg (wf_sample_stored s x Hs) (wf_sample_stored t y Ht)
            Hst _).
  by apply Hm.
Qed.

(** Two processors in agreement on [m] entries return the same samples,
    whatever each is given, until the cycles have used these entries up:
    what is left of the current hop, and one more hop for each [hop]
    entries. *)
Lemma agree_samples_result g :
  samplewise g →
  ∀ xs ys (m : nat) s t e1 e2,
    wf s → wf t → agree m s t → length xs = length ys →
    Z.of_nat (length xs)
    ≤ block_size s - read_position s + hop s * (Z.of_nat m / hop s) →
    (samples_result s xs e1).2 = (samples_result t ys e2).2.
Proof.
  intros Hg. induction xs as [|x xs IH];
    intros [|y ys] m s t e1 e2 Hs Ht Hag Hlen Hbudget; try done.
  rewrite !samples_result_cons. cbn [snd]. f_equal.
  { by apply (agree_sample_output m). }
  destruct xs as [|x' xs].
  { by destruct ys. }
  pose proof (hop_positive s Hs) as Hhop. pose proof Hs as [].
  assert (cycle_due s = true → hop s ≤ Z.of_nat m) as Hm.
  { unfold cycle_due. intros Hdue%Z.leb_le.
    destruct (Z.lt_ge_cases (Z.of_nat m) (hop s)) as [Hlt|]; [|done].
    rewrite Z.div_small in Hbudget by lia. cbn [length] in Hbudget. lia. }
  apply (IH _ (if cycle_due s then m - Z.to_nat (hop s) else m)%nat).
  - by apply wf_sample_result.
  - by apply wf_sample_result.
  - apply (agree_sample_result g); [done..|]. intros Hdue. specialize (Hm Hdue). lia.
  - by injection Hlen.
  - rewrite block_size_sample_result, read_position_sample_result,
      hop_sample_result.
    destruct (cycle_due s) eqn:Hdue.
    + specialize (Hm eq_refl). unfold cycle_due in Hdue.
      apply Z.leb_le in Hdue.
      replace (Z.of_nat (m - Z.to_nat (hop s)))
        with (Z.of_nat m + (-1) * hop s) by lia.
      rewrite Z.div_add by lia.
      cbn [length] in *. lia.
    + cbn [length] in *. lia.
Qed.

(** X10: the samples a call of [run] returns do not depend on the samples
    and on the enable value it is given, for as many samples as are left of
    the current hop plus one hop for each whole hop of the reported latency
    (from a fresh processor whose overlap factor divides the transform size:
    for [fft_size] samples, one hop more than the reported latency),
    whenever the transforms and the spectral stage act sample by sample and
    the block is the whole transform. *)
Theorem run_output_lags_input g self n input1 input2 output1 output2
    enable1 enable2 :
  samplewise g → wf self → block_size self = fft_size self →
  0 ≤ n ≤ block_size self - read_position self
          + hop self * (input_latency self / hop self) →
  n ≤ len input1 → n ≤ len input2 → n ≤ len output1 → n ≤ len output2 →
  ∃ self1 out1 self2 out2,
    stft_p_run self n input1 output1 enable1 = Some (self1, out1)
    ∧ stft_p_run self n input2 output2 enable2 = Some (self2, out2)
    ∧ take (Z.to_nat n) out1 = take (Z.to_nat n) out2.
Proof.
  intros Hg Hwf Hfull Hn Hi1 Hi2 Ho1 Ho2. eexists _, _, _, _.
  split; [by apply stft_p_run_spec|]. split; [by apply stft_p_run_spec|].
  assert (length (take (Z.to_nat n) input1) = Z.to_nat n) as Hl1
    by (unfold len in *; rewrite length_take; lia).
  assert (length (take (Z.to_nat n) input2) = Z.to_nat n) as Hl2
    by (unfold len in *; rewrite length_take; lia).
  rewrite !take_app_length' by (by rewrite length_samples_result).
  pose proof Hwf as [].
  apply (agree_samples_result g Hg _ _ (Z.to_nat (input_latency self)));
    [done|done| |congruence|].
  - split; (done || lia).
  - rewrite Hl1, !Z2Nat.id by lia. lia.
Qed.

(** ** The processor after a reset *)

Lemma silent_mul_zero (x : float) : silent (F32.mul F32.zero x).
Proof. by destruct x. Qed.

Lemma silent_div (x c : float) : silent x → silent (F32.div x c).
Proof. by destruct x, c. Qed.

Lemma silent_add (x y : float) :
  silent x → silent y → silent (F32.add x y).
Proof. destruct x as [[]| | |], y as [[]| | |]; done. Qed.

Lemma silent_zeros n : Forall silent (zeros n).
Proof. by apply Forall_replicate. Qed.

(** With an output window of zeros every synthesized sample is a zero or
    a NaN, whatever the inverse transform gives. *)
Lemma silent_frame self (n : Z) (time : list float) :
  Forall silent (zip_with (synthesis_sample self) (zeros n) time).
Proof.
  apply Forall_zip_with_fst with (P := eq F32.zero).
  - apply Forall_replicate_eq.
  - apply Forall_forall. intros x _ w <-. unfold synthesis_sample.
    apply silent_div, silent_mul_zero.
Qed.

Lemma silent_frame_cycle_result self enable :
  output_window self = zeros (fft_size self) →
  Forall silent (input_fft_buffer (cycle_result self enable)).
Proof.
  intros Hw.
  unfold cycle_result, synthesis_result, processing_result, analysis_result,
    zeropad_result.
  fields. destruct (_ <? _); fields; rewrite Hw; apply silent_frame.
Qed.

Lemma silenced_cycle_result self enable :
  silenced self → silenced (cycle_result self enable).
Proof.
  intros (Hw & Hout & Hacc).
  pose proof (silent_frame_cycle_result self enable Hw) as Hframe.
  destruct (fixed_cycle_result self enable) as (Hc & _ & Hwo & _).
  destruct (overlap_add_cycle_result self enable) as [Ho Ha].
  unfold configuration in Hc.
  assert (fft_size (cycle_result self enable) = fft_size self) as Hfft
    by congruence.
  generalize dependent (input_fft_buffer (cycle_result self enable)).
  intros frame Hframe Ho Ha.
  assert (Forall silent
            (zip_with F32.add
               (take (Z.to_nat (block_size self)) (output_accum self))
               (take (Z.to_nat (block_size self)) frame)
             ++ drop (Z.to_nat (block_size self)) (output_accum self)))
    as Hsum.
  { apply Forall_app. split; [|by apply Forall_drop].
    apply Forall_zip_with_fst with (P := silent); [by apply Forall_take|].
    apply Forall_take. eapply Forall_impl; [exact Hframe|].
    intros y Hy x Hx. by apply silent_add. }
  split; [by rewrite Hwo, Hfft|]. split.
  - rewrite Ho. apply Forall_app.
    split; [by apply Forall_take|by apply Forall_drop].
  - rewrite Ha. apply Forall_app.
    split; [by apply Forall_take, Forall_drop|by apply Forall_drop].
Qed.

Lemma silenced_sample_result self x enable :
  silenced self → silenced (sample_result self x enable).1.
Proof.
  intros Hs. unfold sample_result. cbn [fst].
  destruct (cycle_due self); [|exact Hs].
  apply silenced_cycle_result. exact Hs.
Qed.

Lemma silenced_reset_result self : silenced (reset_result self).
Proof.
  unfold silenced, reset_result. fields.
  split; [done|]. split; apply silent_zeros.
Qed.

Lemma silenced_samples_result self xs enable :
  wf self → silenced self → Forall silent (samples_result self xs enable).2.
Proof.
  revert self. induction xs as [|x xs IH]; intros self Hwf Hs.
  - by apply Forall_nil.
  - rewrite samples_result_cons. cbn [snd]. apply Forall_cons. split.
    + destruct Hs as (_ & Hout & _). pose proof Hwf as [].
      unfold sample_result. cbn [snd]. unfold nth_float, rd, len in *.
      destruct (Z.ltb_spec (read_position self - input_latency self) 0);
        [lia|].
      destruct (out_fifo self
                  !! Z.to_nat (read_position self - input_latency self))
        as [y|] eqn:Hy; [|done].
      exact (Forall_lookup_1 _ _ _ _ Hout Hy).
    + apply IH; [by apply wf_sample_result|by apply silenced_sample_result].
Qed.

(** X11: [reset] silences the processor.  It zeroes the output window with
    the other arrays and nothing but the initialization generates the
    windows again, so after a reset, and whatever calls of [run] and
    [reset] follow, every sample [run] returns is a zero or a NaN,
    whatever the signal, the transforms and the spectral stage. *)
Theorem reset_silences_output self ops n input output enable :
  wf self → forallb in_bounds ops = true →
  n ≤ len input → n ≤ len output →
  ∃ self1 self2 output',
    perform_all self (Reset :: ops) = Some self1
    ∧ stft_p_run self1 n input output enable = Some (self2, output')
    ∧ Forall silent (take (Z.to_nat n) output').
Proof.
  intros Hwf Hops Hin Hout.
  pose proof (wf_reset_result self Hwf) as Hwf0.
  destruct (perform_all_total (reset_result self) ops Hwf0 Hops)
    as [self1 H1].
  assert (wf self1) as Hwf1 by (by eapply wf_perform_all).
  assert (silenced self1) as Hs1.
  { apply (perform_all_preserves silenced (reset_result self) ops);
      try done.
    - intros s x e _. apply silenced_sample_result.
    - intros s _ _. apply silenced_reset_result.
    - apply silenced_reset_result. }
  eexists self1, _, _. split; [|split].
  - cbn [perform_all perform]. by rewrite stft_p_reset_spec.
  - by apply stft_p_run_spec.
  - assert (length (take (Z.to_nat n) input) = Z.to_nat n) as Hl
      by (unfold len in *; rewrite length_take; lia).
    rewrite take_app_length' by (by rewrite length_samples_result).
    by apply silenced_samples_result.
Qed.

End Theory.

(** * Concrete runs of the loopback processor *)

Lemma small_valid : valid_configuration 8 8 4.
Proof. by vm_compute. Qed.

Lemma small_init_eq :
  stft_p_init_with (ext := loopback) 8 8 3 3 4 44100 = Some small.
Proof. apply (stft_p_init_with_spec (ext := loopback)), small_valid. Qed.

Lemma small_wf : wf small.
Proof. apply (wf_init_result (ext := loopback)), small_valid. Qed.

Lemma get_latency_constant_witness :
  ∃ self,
    perform_all small small_session = Some self
    ∧ stft_p_get_latency self = 6.
Proof.
  destruct (perform_all_total small small_session small_wf eq_refl)
    as [self E].
  exists self. split; [exact E|].
  destruct (get_latency_constant (ext := loopback) 8 8 3 3 4 44100 small
              small_session self small_init_eq E) as (_ & _ & _ & _ & H).
  rewrite H. reflexivity.
Defined.

Lemma read_position_invariant_witness :
  ∃ self,
    perform_all small [Run 3 (ramp 3) (zeros 3) one] = Some self
    ∧ input_latency self ≤ read_position self ≤ block_size self.
Proof.
  destruct (perform_all_total small [Run 3 (ramp 3) (zeros 3) one]
              small_wf eq_refl) as [self E].
  exists self. split; [exact E|].
  exact (proj1 (read_position_invariant (ext := loopback) 8 8 3 3 4 44100
                  small [Run 3 (ramp 3) (zeros 3) one] self small_valid
                  small_init_eq E)).
Defined.

Lemma accumulator_tail_zero_witness :
  ∃ self,
    perform_all small [Run 3 (ramp 3) (zeros 3) one] = Some self
    ∧ rd (output_accum self) (block_size self) = Some F32.zero.
Proof.
  destruct (perform_all_total small [Run 3 (ramp 3) (zeros 3) one]
              small_wf eq_refl) as [self E].
  exists self. split; [exact E|].
  apply (proj1 (accumulator_tail_zero (ext := loopback) 8 8 3 3 4 44100
                  small [Run 3 (ramp 3) (zeros 3) one] self small_valid
                  small_init_eq E)).
  pose proof (wf_perform_all _ _ _ small_wf E) as []. lia.
Defined.

Lemma run_pushes_and_pops_witness :
  ∃ self' output',
    stft_p_run small 3 (ramp 3) (zeros 3) one = Some (self', output')
    ∧ len output' = 3.
Proof.
  destruct (proj2 (run_pushes_and_pops (ext := loopback)) small 3 (ramp 3)
              (zeros 3) one small_wf)
    as (self' & output' & Hrun & Hlen & _); [by vm_compute..|].
  exists self', output'. split; [exact Hrun|]. rewrite Hlen. reflexivity.
Defined.

Lemma run_blocks_independent_witness :
  stft_p_run_blocks small [ramp 1; []; ramp 5; ramp 3] one
  = stft_p_run small 9 (ramp 1 ++ ramp 5 ++ ramp 3) (zeros 9) one.
Proof.
  exact (run_blocks_independent (ext := loopback) small
           [ramp 1; []; ramp 5; ramp 3] one small_wf).
Defined.

Lemma small_recording_wf : wf small_recording.
Proof. apply (wf_init_result (ext := recording)), small_valid. Qed.

Lemma enable_only_reaches_stage_witness :
  ∃ self1' output1' self2' output2',
    stft_p_run small_recording 5 (ramp 5) (zeros 5) one
    = Some (self1', output1')
    ∧ stft_p_run small_recording 5 (ramp 5) (zeros 5) F32.zero
      = Some (self2', output2')
    ∧ bookkeeping self1' = bookkeeping self2'.
Proof.
  destruct (enable_only_reaches_stage (ext := recording) small_recording
              small_recording 5 (ramp 5) (zeros 5) (zeros 5) one F32.zero
              small_recording_wf small_recording_wf eq_refl)
    as (_ & (s1 & o1 & s2 & o2 & trace & H1 & H2 & H3 & _) & _);
    [by vm_compute..|].
  exists s1, o1, s2, o2. split; [exact H1|]. split; [exact H2|exact H3].
Defined.

(** The recording stage after five samples, two cycles: it was called twice,
    each time with the flag of the caller. *)
Lemma run_records_the_flag :
  match stft_p_run small_recording 5 (ramp 5) (zeros 5) one,
        stft_p_run small_recording 5 (ramp 5) (zeros 5) F32.zero with
  | Some (self1, _), Some (self2, _) =>
      fft_processor self1 = [one; one]
      ∧ fft_processor self2 = [F32.zero; F32.zero]
  | _, _ => False
  end.
Proof. vm_compute. by split. Qed.

(** The scale factor of a processor whose block is half the transform: the
    code divides by the block size, 2, not by the transform size, 4. *)
Lemma scale_factor_counterexample :
  match stft_p_init_with (ext := loopback) 4 2 3 3 2 44100 with
  | Some self =>
      overlap_scale_factor self
      ≠ F32.div (inner_product (input_window self) (output_window self))
          (F32.of_int (fft_size self))
  | None => False
  end.
Proof. vm_compute. discriminate. Qed.

Lemma scale_factor_is_inner_product_witness :
  ∃ self',
    stft_p_pre_and_post_window small = Some self'
    ∧ overlap_scale_factor self'
      = F32.div (inner_product (input_window self') (output_window self'))
          (F32.of_int (fft_size self')).
Proof.
  destruct (scale_factor_is_inner_product (ext := loopback) small
              (allocated_wf small small_wf)) as (self' & Hw & _ & H).
  exists self'. split; [exact Hw|]. apply H. reflexivity.
Defined.

(** A mid-stream [reset] leaves windows that are not the generated ones. *)
Lemma windows_reset_counterexample :
  windows_generated small
  ∧ match stft_p_reset small with
    | Some self => ¬ windows_generated self
    | None => False
    end.
Proof.
  split.
  - apply (windows_generated_init_result (ext := loopback)), small_valid.
  - vm_compute. intros [H _]. discriminate H.
Qed.

Lemma windows_generated_until_reset_witness :
  ∃ self0 self',
    stft_p_init_with (ext := loopback) 4 2 3 3 2 44100 = Some self0
    ∧ input_window self0 = [one; one; F32.zero; F32.zero]
    ∧ stft_p_reset self0 = Some self'
    ∧ input_window self' = zeros 4.
Proof.
  destruct (windows_generated_until_reset (ext := loopback) 4 2 3 3 2 44100)
    as (self0 & Hinit & Hfft & Hwi & _ & _ & _ & _ & _ & Hreset);
    [lia|lia|].
  destruct (Hreset [] self0 eq_refl) as (self' & Hr & Hi & _).
  exists self0, self'.
  split; [exact Hinit|]. split; [exact Hwi|]. split; [exact Hr|].
  rewrite Hi, Hfft. reflexivity.
Defined.

(** C2 (what the code does instead): with a block of 4 samples in a transform
    of 8, [stft_p_zeropad] stores its 4 zeros at the indices 3 to 6: the last
    sample of the block is cleared and the last entry of the buffer is left
    as it was; [stft_p_analysis] then transforms a frame without that
    sample. *)
Theorem zeropad_off_by_one :
  option_map input_fft_buffer (stft_p_zeropad padded)
  = Some (F32.of_int <$> [1; 2; 3; 0; 0; 0; 0; 8])
  ∧ option_map input_fft_buffer (stft_p_analysis padded)
    = Some (F32.of_int <$> [1; 2; 3; 0; 0; 0; 0; 0]).
Proof. split; vm_compute; reflexivity. Qed.

(** C1 (what the code does instead): the loopback processor with a transform
    of 8 samples and a hop of 2 reports a latency of 6, yet the signal
    1, 2, 3, ... comes out after 8 samples, the transform size: the output
    samples 6 and 7 are zero, not the input samples 0 and 1. *)
Theorem output_delay_is_transform_size :
  stft_p_get_latency small = 6
  ∧ option_map snd (stft_p_run small 14 (ramp 14) (zeros 14) one)
    = Some (zeros 8 ++ ramp 6).
Proof. split; vm_compute; reflexivity. Qed.

Lemma default_processor_safe_witness :
  ∃ self0 self,
    stft_p_init (ext := loopback) 44100 = Some self0
    ∧ perform_all self0 small_session = Some self
    ∧ stft_p_get_latency self = 1536.
Proof.
  destruct (default_processor_safe (ext := loopback) 44100 small_session
              eq_refl) as (self0 & self & H0 & H1 & _ & _ & _ & _ & _ & H2).
  exists self0, self. split; [exact H0|]. split; [exact H1|exact H2].
Defined.

Lemma synthesis_needs_whole_block_witness : stft_p_synthesis padded = None.
Proof.
  apply (synthesis_needs_whole_block (ext := loopback));
    vm_compute; (reflexivity || discriminate).
Defined.

Lemma zeropad_range_witness :
  ∃ self', stft_p_zeropad padded = Some self'
           ∧ rd (input_fft_buffer self') 3 = Some F32.zero
           ∧ rd (input_fft_buffer self') 7 = rd (input_fft_buffer padded) 7.
Proof.
  destruct (proj1 (proj2 (zeropad_range (ext := loopback) padded eq_refl)))
    as (self' & Hz & _ & Hrd); [vm_compute; split; (reflexivity || discriminate)|].
  exists self'. split; [exact Hz|]. split; [exact (Hrd 3)|exact (Hrd 7)].
Defined.

Lemma reset_zeroes_arrays_witness :
  ∃ self', stft_p_reset small = Some self' ∧ in_fifo self' = zeros 8
           ∧ stft_p_reset self' = Some self'.
Proof.
  destruct (reset_zeroes_arrays (ext := loopback) small
              (allocated_wf small small_wf))
    as (self' & Hr & _ & _ & _ & _ & Hf & _ & _ & _ & _ & _ & _ & Hi).
  exists self'. split; [exact Hr|]. split; [exact Hf|exact Hi].
Defined.

Lemma window_setup_writes_block_only_witness :
  ∃ self',
    stft_p_pre_and_post_window padded = Some self'
    ∧ drop 4 (input_window self') = drop 4 (input_window padded).
Proof.
  assert (allocated padded) as Hal by (split; vm_compute; (reflexivity || discriminate)).
  destruct (window_setup_writes_block_only (ext := loopback) padded Hal)
    as (self' & Hw & _ & _ & Hd & _).
  exists self'. split; [exact Hw|exact Hd].
Defined.

Lemma out_fifo_tail_unused_witness :
  ∃ self,
    perform_all small [Run 3 (ramp 3) (zeros 3) one] = Some self
    ∧ rd (out_fifo self) (hop self) = Some F32.zero.
Proof.
  destruct (perform_all_total small [Run 3 (ramp 3) (zeros 3) one]
              small_wf eq_refl) as [self E].
  exists self. split; [exact E|].
  apply (out_fifo_tail_unused (ext := loopback) 8 8 3 3 4 44100 small
           [Run 3 (ramp 3) (zeros 3) one] self small_valid small_init_eq E).
  pose proof (configuration_perform_all _ _ _ E) as Hc.
  unfold configuration in Hc. injection Hc as _ Hb _ Hh _ _ _ _ _.
  rewrite Hb, Hh. vm_compute. split; [discriminate|reflexivity].
Defined.

Lemma input_queue_sliding_window_witness :
  ∃ self' output',
    stft_p_run small 5 (ramp 5) (zeros 5) one = Some (self', output')
    ∧ read_position self' = 7
    ∧ pending self' = drop 4 (zeros 6 ++ ramp 5).
Proof.
  destruct (input_queue_sliding_window (ext := loopback) small 5 (ramp 5)
              (zeros 5) one small_wf)
    as (self' & output' & Hrun & Hrp & Hq);
    [vm_compute; discriminate..|].
  exists self', output'. split; [exact Hrun|]. split; [exact Hrp|exact Hq].
Defined.

Lemma outputs_before_cycle_witness :
  ∃ self' output',
    stft_p_run small 2 (ramp 2) (zeros 2) one = Some (self', output')
    ∧ take 2 output' = zeros 2.
Proof.
  destruct (outputs_before_cycle (ext := loopback) small 2 (ramp 2)
              (zeros 2) one small_wf)
    as (self' & output' & Hrun & Hout);
    [vm_compute; split; discriminate|vm_compute; discriminate..|].
  exists self', output'. split; [exact Hrun|exact Hout].
Defined.

Lemma reset_then_setup_restores_witness :
  ∃ self self1 self2,
    perform_all small [Run 3 (ramp 3) (zeros 3) one] = Some self
    ∧ stft_p_reset self = Some self1
    ∧ stft_p_pre_and_post_window self1 = Some self2
    ∧ arrays self2 = arrays small.
Proof.
  destruct (perform_all_total small [Run 3 (ramp 3) (zeros 3) one]
              small_wf eq_refl) as [self E].
  destruct (reset_then_setup_restores (ext := loopback) 8 8 3 3 4 44100 small
              [Run 3 (ramp 3) (zeros 3) one] self small_valid small_init_eq E)
    as (self1 & self2 & H1 & H2 & H3 & _).
  exists self, self1, self2.
  split; [exact E|]. split; [exact H1|]. split; [exact H2|exact H3].
Defined.

Lemma nth_float_tabulate (n : Z) (f : Z → float) (k : Z) :
  0 ≤ k < n → nth_float (tabulate n f) k = f k.
Proof.
  intros Hk. unfold nth_float, rd.
  destruct (Z.ltb_spec k 0); [lia|].
  rewrite lookup_tabulate by lia. by rewrite Z2Nat.id by lia.
Qed.

(** The loopback transforms and stage act sample by sample: the round trip
    of a frame of [n] samples multiplies each sample by [n]. *)
Lemma loopback_samplewise :
  samplewise (ext := loopback) (λ n _ x, F32.mul x (F32.of_int n)).
Proof.
  intros p frame enable k Hk.
  cbn [hc2r r2hc fft_p_run_spectrum loopback].
  pose proof (Zle_0_nat (length frame)) as Hlen. fold (len frame) in Hlen.
  unfold len at 3. rewrite length_tabulate. rewrite Z2Nat.id by done.
  by rewrite !nth_float_tabulate by done.
Qed.

Lemma run_output_lags_input_witness :
  ∃ self1 out1 self2 out2,
    stft_p_run small 8 (ramp 8) (zeros 8) one = Some (self1, out1)
    ∧ stft_p_run small 8 (zeros 8) (zeros 8) one = Some (self2, out2)
    ∧ take 8 out1 = take 8 out2.
Proof.
  destruct (run_output_lags_input (ext := loopback) _ small 8 (ramp 8)
              (zeros 8) (zeros 8) (zeros 8) one one loopback_samplewise
              small_wf)
    as (self1 & out1 & self2 & out2 & H1 & H2 & H3);
    [vm_compute; reflexivity|vm_compute; split; discriminate
    |vm_compute; discriminate..|].
  exists self1, out1, self2, out2.
  split; [exact H1|]. split; [exact H2|exact H3].
Defined.

Lemma reset_silences_output_witness :
  ∃ self1 self2 output',
    perform_all small [Reset; Run 3 (ramp 3) (zeros 3) one] = Some self1
    ∧ stft_p_run self1 20 (ramp 20) (zeros 20) one = Some (self2, output')
    ∧ Forall silent (take 20 output').
Proof.
  destruct (reset_silences_output (ext := loopback) small
              [Run 3 (ramp 3) (zeros 3) one] 20 (ramp 20) (zeros 20) one
              small_wf eq_refl)
    as (self1 & self2 & output' & H1 & H2 & H3);
    [vm_compute; discriminate..|].
  exists self1, self2, output'.
  split; [exact H1|]. split; [exact H2|exact H3].
Defined.
